(** * Skeema core: statement splitter, index comparison, ordering utility

    A shallow embedding of three pieces of the repository:
    - [SQLFile.Parse] (package [fs]), the character-level statement splitter;
    - [Index.Equivalent], [Index.RedundantTo] and their helpers (package
      [tengo]), together with [splitAttributes];
    - [longestIncreasingSubsequence] (package [tengo]).

    Go strings are byte strings: they are modelled as [string] (one [ascii]
    per byte).  Runes are code points in [N].  Byte offsets, line and
    column counters are [nat].  A pointer that may be nil is an [option]. *)

From Stdlib Require Import ZArith NArith Ascii String List Bool Lia.
From stdpp Require Import base option list strings gmap sorting.

Local Open Scope string_scope.

(** ** Go standard library pieces used by the splitter *)

Module GoStd.

Definition rune := N.

Definition byteN (c : ascii) : N := N_of_ascii c.

(** [utf8.RuneError] *)
Definition RuneError : rune := 65533%N.

Definition is_cont (b : N) : bool := ((128 <=? b) && (b <=? 191))%N.

(** [utf8.DecodeRuneInString]: the first rune of [s] and its width in
    bytes; [(RuneError, 0)] on the empty string and [(RuneError, 1)] on an
    invalid or truncated encoding. *)
Definition DecodeRuneInString (s : string) : rune * nat :=
  match s with
  | EmptyString => (RuneError, 0)
  | String c0 r0 =>
    let b0 := byteN c0 in
    if (b0 <? 128)%N then (b0, 1)
    else if ((194 <=? b0) && (b0 <=? 223))%N then
      match r0 with
      | String c1 _ =>
        let b1 := byteN c1 in
        if is_cont b1
        then (N.lor (N.shiftl (N.land b0 31) 6) (N.land b1 63), 2)
        else (RuneError, 1)
      | _ => (RuneError, 1)
      end
    else if ((224 <=? b0) && (b0 <=? 239))%N then
      match r0 with
      | String c1 (String c2 _) =>
        let b1 := byteN c1 in
        let b2 := byteN c2 in
        let lo := if (b0 =? 224)%N then 160%N else 128%N in
        let hi := if (b0 =? 237)%N then 159%N else 191%N in
        if ((lo <=? b1) && (b1 <=? hi))%N && is_cont b2
        then (N.lor (N.lor (N.shiftl (N.land b0 15) 12)
                           (N.shiftl (N.land b1 63) 6))
                    (N.land b2 63), 3)
        else (RuneError, 1)
      | _ => (RuneError, 1)
      end
    else if ((240 <=? b0) && (b0 <=? 244))%N then
      match r0 with
      | String c1 (String c2 (String c3 _)) =>
        let b1 := byteN c1 in
        let b2 := byteN c2 in
        let b3 := byteN c3 in
        let lo := if (b0 =? 240)%N then 144%N else 128%N in
        let hi := if (b0 =? 244)%N then 143%N else 191%N in
        if ((lo <=? b1) && (b1 <=? hi))%N && is_cont b2 && is_cont b3
        then (N.lor (N.lor (N.lor (N.shiftl (N.land b0 7) 18)
                                  (N.shiftl (N.land b1 63) 12))
                           (N.shiftl (N.land b2 63) 6))
                    (N.land b3 63), 4)
        else (RuneError, 1)
      | _ => (RuneError, 1)
      end
    else (RuneError, 1)
  end.

(** [for n, c := range s]: the byte offset and the rune of every character
    of [s], in order.  [skip] counts the continuation bytes of the rune
    decoded last that are still to be passed over. *)
Fixpoint range_from (n skip : nat) (s : string) : list (nat * rune) :=
  match s with
  | EmptyString => []
  | String _ rest =>
    match skip with
    | S k => range_from (S n) k rest
    | O =>
      let '(r, size) := DecodeRuneInString s in
      (n, r) :: range_from (S n) (size - 1) rest
    end
  end.

Definition range (s : string) : list (nat * rune) := range_from 0 0 s.

(** [unicode.IsSpace] *)
Definition IsSpace (r : rune) : bool :=
  if (r <=? 255)%N then
    ((r =? 9) || (r =? 10) || (r =? 11) || (r =? 12) || (r =? 13)
     || (r =? 32) || (r =? 133) || (r =? 160))%N
  else
    ((r =? 5760) || ((8192 <=? r) && (r <=? 8202)) || (r =? 8232)
     || (r =? 8233) || (r =? 8239) || (r =? 8287) || (r =? 12288))%N.

(** [s[n]]; the splitter only indexes inside the string, the default is
    never read. *)
Definition byte_at (s : string) (n : nat) : N :=
  match get n s with
  | Some c => byteN c
  | None => 0%N
  end.

(** [s[lo:hi]] and [s[lo:]] *)
Definition slice (s : string) (lo hi : nat) : string := substring lo (hi - lo) s.
Definition slice_from (s : string) (lo : nat) : string :=
  substring lo (String.length s - lo) s.

(** The line feed, as a one-byte string. *)
Definition LF : string := String (ascii_of_nat 10) EmptyString.

End GoStd.

(** ** Package fs: the statement splitter *)

Module Fs.
Import GoStd.

Record SQLFile := mkSQLFile { Dir : string; FileName : string }.

Record Statement := mkStatement {
  File : SQLFile;
  LineNo : nat;
  CharNo : nat;
  Text : string
}.

(** An argument of [fmt.Errorf]. *)
Inductive fmtArg :=
| ArgFile (sf : SQLFile)
| ArgRune (r : rune).

(** An error value: either the one [ioutil.ReadFile] reported, or one built
    by [fmt.Errorf] from a format string and its arguments. *)
Inductive error :=
| ReadError (msg : string)
| Errorf (format : string) (args : list fmtArg).

(** The loop-carried variables of [Parse]. *)
Record scan := mkScan {
  result : list Statement;
  stmt : Statement;
  inQuote : rune;
  inRelevant : bool;
  inLineComment : bool;
  inCComment : bool;
  escapeNext : bool;
  startStatement : nat;
  charNo : nat;
  lineNo : nat
}.

Definition set_result (st : scan) (v : list Statement) : scan :=
  mkScan v (stmt st) (inQuote st) (inRelevant st) (inLineComment st)
         (inCComment st) (escapeNext st) (startStatement st) (charNo st) (lineNo st).
Definition set_stmt (st : scan) (v : Statement) : scan :=
  mkScan (result st) v (inQuote st) (inRelevant st) (inLineComment st)
         (inCComment st) (escapeNext st) (startStatement st) (charNo st) (lineNo st).
Definition set_inQuote (st : scan) (v : rune) : scan :=
  mkScan (result st) (stmt st) v (inRelevant st) (inLineComment st)
         (inCComment st) (escapeNext st) (startStatement st) (charNo st) (lineNo st).
Definition set_inRelevant (st : scan) (v : bool) : scan :=
  mkScan (result st) (stmt st) (inQuote st) v (inLineComment st)
         (inCComment st) (escapeNext st) (startStatement st) (charNo st) (lineNo st).
Definition set_inLineComment (st : scan) (v : bool) : scan :=
  mkScan (result st) (stmt st) (inQuote st) (inRelevant st) v
         (inCComment st) (escapeNext st) (startStatement st) (charNo st) (lineNo st).
Definition set_inCComment (st : scan) (v : bool) : scan :=
  mkScan (result st) (stmt st) (inQuote st) (inRelevant st) (inLineComment st)
         v (escapeNext st) (startStatement st) (charNo st) (lineNo st).
Definition set_escapeNext (st : scan) (v : bool) : scan :=
  mkScan (result st) (stmt st) (inQuote st) (inRelevant st) (inLineComment st)
         (inCComment st) v (startStatement st) (charNo st) (lineNo st).
Definition set_startStatement (st : scan) (v : nat) : scan :=
  mkScan (result st) (stmt st) (inQuote st) (inRelevant st) (inLineComment st)
         (inCComment st) (escapeNext st) v (charNo st) (lineNo st).
Definition set_charNo (st : scan) (v : nat) : scan :=
  mkScan (result st) (stmt st) (inQuote st) (inRelevant st) (inLineComment st)
         (inCComment st) (escapeNext st) (startStatement st) v (lineNo st).
Definition set_lineNo (st : scan) (v : nat) : scan :=
  mkScan (result st) (stmt st) (inQuote st) (inRelevant st) (inLineComment st)
         (inCComment st) (escapeNext st) (startStatement st) (charNo st) v.

Definition with_Text (s : Statement) (t : string) : Statement :=
  mkStatement (File s) (LineNo s) (CharNo s) t.

(** [result[lastResult].Text += "\n"] *)
Fixpoint append_to_last (res : list Statement) (t : string) : list Statement :=
  match res with
  | [] => []
  | [s] => [with_Text s (Text s ++ t)]
  | s :: rest => s :: append_to_last rest t
  end.

(** The state before the first character. *)
Definition scan_init (sf : SQLFile) : scan :=
  mkScan [] (mkStatement sf 1 1 "") 0%N false false false false 0 0 1.

(** The switch at the end of the loop body, reached by a character that is
    outside quotes and comments and not escaped. *)
Definition dispatch (sf : SQLFile) (contents : string) (st : scan)
    (n : nat) (c : rune) : scan :=
  if (c =? 59)%N then (* ';' *)
    let closed := with_Text (stmt st) (slice contents (startStatement st) (n + 1)) in
    let st := set_result st (result st ++ [closed])%list in
    let st := set_stmt st (mkStatement sf (lineNo st) (charNo st + 1) "") in
    let st := set_startStatement st (n + 1) in
    set_inRelevant st false
  else if (c =? 92)%N then (* backslash *)
    set_escapeNext st true
  else if ((c =? 34) || (c =? 96) || (c =? 39))%N then (* double quote, backtick, single quote *)
    set_inQuote st c
  else st.

(** One iteration of [for n, c := range contents]. *)
Definition step (sf : SQLFile) (contents : string) (last : Z) (st : scan)
    (nc : nat * rune) : scan :=
  let '(n, c) := nc in
  let st := set_charNo st (charNo st + 1) in
  if (c =? 10)%N then
    let st := set_inLineComment st false in
    let st := set_escapeNext st false in
    let st := set_lineNo st (lineNo st + 1) in
    let st := set_charNo st 0 in
    let lastResult := (Z.of_nat (length (result st)) - 1)%Z in
    if (0 <=? lastResult)%Z && (startStatement st =? n)%nat then
      let st := set_result st (append_to_last (result st) LF) in
      let st := set_startStatement st (startStatement st + 1) in
      set_stmt st (mkStatement (File (stmt st)) (LineNo (stmt st) + 1) 1 (Text (stmt st)))
    else st
  else if inLineComment st then st
  else if inCComment st then
    if (c =? 47)%N && (byte_at contents (n - 1) =? 42)%N
    then set_inCComment st false
    else st
  else if escapeNext st then set_escapeNext st false
  else if (0 <? inQuote st)%N then
    if (c =? inQuote st)%N then
      let st :=
        if (Z.of_nat n <? last)%Z
        then if (fst (DecodeRuneInString (slice_from contents (n + 1))) =? inQuote st)%N
             then set_escapeNext st true else st
        else st in
      if negb (escapeNext st) then set_inQuote st 0%N else st
    else st
  else if (c =? 35)%N then set_inLineComment st true
  else if (0 <? n)%nat && (c =? 42)%N && (byte_at contents (n - 1) =? 47)%N
  then set_inCComment st true
  else if (1 <? n)%nat && (c =? 32)%N && (byte_at contents (n - 1) =? 45)%N
          && (byte_at contents (n - 2) =? 45)%N
  then set_inLineComment st true
  else
    let st :=
      if negb (IsSpace c) && negb (inRelevant st) then
        let st :=
          if (startStatement st <? n)%nat then
            let gap := with_Text (stmt st) (slice contents (startStatement st) n) in
            let st := set_result st (result st ++ [gap])%list in
            set_stmt st (mkStatement sf (lineNo st) (charNo st) "")
          else st in
        set_inRelevant st true
      else st in
    dispatch sf contents st n c.

(** The whole loop. *)
Definition run (sf : SQLFile) (contents : string) (rs : list (nat * rune)) (st : scan) : scan :=
  fold_left (step sf contents (Z.of_nat (String.length contents) - 1)) rs st.

(** The loop variables when the loop over the whole of [contents] ends. *)
Definition final_scan (sf : SQLFile) (contents : string) : scan :=
  run sf contents (range contents) (scan_init sf).

(** What [Parse] does after the loop: the error, then the dangling text. *)
Definition finish (sf : SQLFile) (contents : string) (st : scan)
    : list Statement * option error :=
  let err :=
    if negb (inQuote st =? 0)%N then
      Some (Errorf "File %s has unterminated quote %c" [ArgFile sf; ArgRune (inQuote st)])
    else if inCComment st then
      Some (Errorf "File %s has unterminated C-style comment" [ArgFile sf])
    else None in
  let dangling := with_Text (stmt st) (slice_from contents (startStatement st)) in
  (if (0 <? String.length (Text dangling))%nat then (result st ++ [dangling])%list else result st,
   err).

(** [SQLFile.Parse].  [file] is what [ioutil.ReadFile(sf.Path())] returned:
    an error, or the bytes of the file. *)
Definition Parse (sf : SQLFile) (file : string + string)
    : list Statement * option error :=
  match file with
  | inl msg => ([], Some (ReadError msg))
  | inr byteContents =>
    finish sf byteContents (final_scan sf byteContents)
  end.

(** An example file. *)
Definition example_file : SQLFile := mkSQLFile "/schemas/shop" "orders.sql".

(** The scanner is outside quotes and comments and no escape is pending. *)
Definition normal (st : scan) : Prop :=
  inQuote st = 0%N ∧ inLineComment st = false ∧ inCComment st = false
  ∧ escapeNext st = false.

(** *** Predicates on the scanner's state *)

(** [offsets_ok b rs len]: the offsets of [rs] increase strictly, start at
    [b] or later and stay below [len]. *)
Fixpoint offsets_ok (b : nat) (rs : list (nat * rune)) (len : nat) : Prop :=
  match rs with
  | [] => (b <= len)%nat
  | (n, _) :: rs' => (b <= n)%nat ∧ offsets_ok (S n) rs' len
  end.

Definition is_quote_rune (q : rune) : Prop := q = 34%N ∨ q = 96%N ∨ q = 39%N.

(** [scan_inv st b]: every offset still to come is at least [b]; the
    pending segment starts at or before [b], and strictly before it while
    a quote is open. *)
Definition scan_inv (st : scan) (b : nat) : Prop :=
  (startStatement st <= b)%nat ∧
  (inQuote st ≠ 0%N → (startStatement st < b)%nat ∧ is_quote_rune (inQuote st)).

(** [range_ok contents b rs]: the offsets of [rs] increase strictly from
    [b] on and lie inside [contents], and a rune below 128 is the byte at
    its offset. *)
Fixpoint range_ok (contents : string) (b : nat) (rs : list (nat * rune)) : Prop :=
  match rs with
  | [] => (b <= String.length contents)%nat
  | (n, c) :: rs' =>
    (b <= n)%nat ∧ (n < String.length contents)%nat
    ∧ ((c < 128)%N → get n contents = Some (ascii_of_N c))
    ∧ range_ok contents (S n) rs'
  end.

(** The texts of a statement sequence, and their concatenation. *)
Definition texts (l : list Statement) : list string := map Text l.
Definition concat_texts (l : list Statement) : string :=
  fold_right String.append "" (texts l).



(** No statement collected so far has an empty text. *)
Definition texts_nonempty (l : list Statement) : Prop :=
  Forall (λ s, Text s ≠ "") l.

(** Line numbers: those of the collected statements do not decrease, none
    is above that of the pending statement, which is at most the current
    line, which is one more than the number of line feeds read. *)
Definition lines_ok (st : scan) (lfs : nat) : Prop :=
  StronglySorted le (map LineNo (result st))
  ∧ Forall (λ k, (1 <= k)%nat ∧ (k <= LineNo (stmt st))%nat) (map LineNo (result st))
  ∧ (1 <= LineNo (stmt st))%nat
  ∧ (LineNo (stmt st) <= lineNo st)%nat
  ∧ lineNo st = S lfs.

(** The number of line feeds among runes. *)
Definition count_LF (rs : list (nat * rune)) : nat :=
  length (filter (λ nc : nat * rune, snd nc = 10%N) rs).

(** While a block comment is open the pending segment starts before the
    next offset. *)
Definition comment_inv (st : scan) (b : nat) : Prop :=
  (startStatement st <= b)%nat
  ∧ (inCComment st = true → (startStatement st < b)%nat).

(** The first statement of [l], if there is one, is at line 1, column 1. *)
Definition at_origin (l : list Statement) : Prop :=
  match l with
  | [] => True
  | s :: _ => LineNo s = 1%nat ∧ CharNo s = 1%nat
  end.

(** Every statement of [l] is of file [sf], at a column of 1 or more, and
    the first one is at the start of the file. *)
Definition positions_ok (sf : SQLFile) (l : list Statement) : Prop :=
  Forall (λ s, File s = sf ∧ (1 ≤ CharNo s)%nat) l ∧ at_origin l.

End Fs.

(** ** Package tengo: indexes *)

Module Tengo.

(** [strings.ToUpper] and [strings.ToLower], on the ASCII letters.  A byte
    of 128 or more is kept as it is, so the two functions agree with Go's
    on ASCII strings, which is where they are used below. *)
Definition upper_byte (c : ascii) : ascii :=
  let b := N_of_ascii c in
  if ((97 <=? b) && (b <=? 122))%N then ascii_of_N (b - 32) else c.

Definition lower_byte (c : ascii) : ascii :=
  let b := N_of_ascii c in
  if ((65 <=? b) && (b <=? 90))%N then ascii_of_N (b + 32) else c.

Fixpoint ToUpper (s : string) : string :=
  match s with
  | EmptyString => EmptyString
  | String c rest => String (upper_byte c) (ToUpper rest)
  end.

Fixpoint ToLower (s : string) : string :=
  match s with
  | EmptyString => EmptyString
  | String c rest => String (lower_byte c) (ToLower rest)
  end.

(** [strings.Cut] *)
Definition Cut (s sep : string) : string * string * bool :=
  match index 0 sep s with
  | Some i =>
    (substring 0 i s,
     substring (i + String.length sep) (String.length s - (i + String.length sep)) s,
     true)
  | None => (s, "", false)
  end.

Definition backtick : ascii := ascii_of_nat 96.
Definition dquote : ascii := ascii_of_nat 34.
Definition squote : ascii := ascii_of_nat 39.

(** The two helpers of package [tengo] that [splitAttributes] and
    [sameAttributes] call and whose code is not part of the sources at
    hand.  The index functions below take them as a parameter. *)
Class Lexing := mkLexing {
  TokenizeString : string → list string;
  stripAnyQuote : string → string
}.

(** White space and quote characters, as the modelled tokenizer below
    tells them. *)
Definition is_blank (c : ascii) : bool :=
  let b := N_of_ascii c in
  ((b =? 32) || ((9 <=? b) && (b <=? 13)))%N.

Definition is_quote (c : ascii) : bool :=
  Ascii.eqb c backtick || Ascii.eqb c dquote || Ascii.eqb c squote.

(** The bareword read so far, if any, becomes a token. *)
Definition flush (cur : string) (toks : list string) : list string :=
  match cur with
  | EmptyString => toks
  | _ => cur :: toks
  end.

(** Modelled from the spec: the scanning loop of [TokenizeString], which
    is missing.  The spec speaks of bareword keys, backtick-quoted keys,
    quoted values and [KEY=VALUE] entries: here white space separates
    tokens and is dropped, [=] is a token of its own, and a quoted run,
    from its opening quote to the next occurrence of the same quote
    character, is one token, quotes included.  [cur] is the bareword
    being read, [q] the open quote. *)
Fixpoint tokenize_from (q : option ascii) (cur : string) (s : string) : list string :=
  match s with
  | EmptyString => flush cur []
  | String c rest =>
    match q with
    | Some qc =>
      if Ascii.eqb c qc
      then (cur ++ String c "") :: tokenize_from None "" rest
      else tokenize_from q (cur ++ String c "") rest
    | None =>
      if is_blank c then flush cur (tokenize_from None "" rest)
      else if Ascii.eqb c "="%char then flush cur ("=" :: tokenize_from None "" rest)
      else if is_quote c then flush cur (tokenize_from (Some c) (String c "") rest)
      else tokenize_from None (cur ++ String c "") rest
    end
  end.

(** Modelled from the spec: [TokenizeString], which is missing; see
    [tokenize_from]. *)
Definition TokenizeString_model (s : string) : list string := tokenize_from None "" s.

(** Modelled from the spec: [stripAnyQuote] is missing.  A string of two or
    more bytes that starts and ends with the same quote character loses
    that pair; any other string is returned as it is. *)
Definition stripAnyQuote_model (s : string) : string :=
  match s with
  | String c0 rest =>
    match get (String.length rest - 1) rest with
    | Some cl =>
      if is_quote c0 && Ascii.eqb c0 cl
      then substring 0 (String.length rest - 1) rest
      else s
    | None => s
    end
  | EmptyString => s
  end.

Definition model_lexing : Lexing := mkLexing TokenizeString_model stripAnyQuote_model.

(** A non-empty string whose first byte is not a quote character. *)
Definition unquoted (w : string) : Prop :=
  match w with
  | String c _ => is_quote c = false
  | EmptyString => False
  end.

(** Every byte of [w] is part of a bareword for [tokenize_from]. *)
Fixpoint bareword (w : string) : bool :=
  match w with
  | EmptyString => true
  | String c rest =>
    negb (is_blank c) && negb (Ascii.eqb c "="%char) && negb (is_quote c)
    && bareword rest
  end.

Definition is_letter (c : ascii) : bool :=
  let b := N_of_ascii c in
  (((65 <=? b) && (b <=? 90)) || ((97 <=? b) && (b <=? 122)))%N.

Fixpoint letters (w : string) : bool :=
  match w with
  | EmptyString => true
  | String c rest => is_letter c && letters rest
  end.

Record IndexPart := mkIndexPart {
  ColumnName : string;
  Expression : string;
  PrefixLength : Z;      (* uint16 *)
  Descending : bool
}.

(** [Type_] is the field [Type]. *)
Record Index := mkIndex {
  Name : string;
  Parts : list IndexPart;
  PrimaryKey : bool;
  Unique : bool;
  Invisible : bool;
  Comment : string;
  Type_ : string;
  FullTextParser : string;
  Attributes : string
}.

#[global] Instance IndexPart_eq_dec : EqDecision IndexPart.
Proof. solve_decision. Defined.

Definition with_Attributes (idx : Index) (attrs : string) : Index :=
  mkIndex (Name idx) (Parts idx) (PrimaryKey idx) (Unique idx) (Invisible idx)
          (Comment idx) (Type_ idx) (FullTextParser idx) attrs.

(** The loop of [sameParts], from index [n] on: [mine] is what is left of
    [idx.Parts].  [None] is the panic of an index out of range. *)
Fixpoint sameParts_from (n : nat) (mine other : list IndexPart) : option bool :=
  match mine with
  | [] => Some true
  | part :: rest =>
    o ← other !! n;
    if bool_decide (part ≠ o) then Some false
    else sameParts_from (S n) rest other
  end.

Definition sameParts (idx other : Index) : option bool :=
  if negb (length (Parts idx) =? length (Parts other))%nat then Some false
  else sameParts_from 0 (Parts idx) (Parts other).

Section WithLexing.
Context {L : Lexing}.

(** The loop of [splitAttributes] over the tokens from the current one on.
    [None] is a panic: the first byte of an empty token, or the inside of
    a value that is a lone double quote. *)
Fixpoint splitAttributes_loop (tokens : list string) : option (list string) :=
  match tokens with
  | [] => Some []
  | tok :: rest =>
    c0 ← get 0 tok;
    let field := if Ascii.eqb c0 backtick then tok else ToUpper tok in
    let plain :=
      tail ← splitAttributes_loop rest;
      Some (if negb (String.eqb field "PARTITIONED") then field :: tail else tail) in
    match rest with
    | eq :: value :: rest' =>
      if String.eqb eq "=" then
        v0 ← get 0 value;
        vl ← get (String.length value - 1) value;
        entry ←
          (if Ascii.eqb v0 dquote && Ascii.eqb vl dquote then
             if (String.length value <? 2)%nat then None
             else Some (field ++ "='" ++ substring 1 (String.length value - 2) value ++ "'")
           else Some (field ++ "=" ++ value));
        tail ← splitAttributes_loop rest';
        Some (entry :: tail)
      else plain
    | _ => plain
    end
  end.

Definition splitAttributes (input : string) : option (list string) :=
  if String.eqb input "" then Some []
  else splitAttributes_loop (TokenizeString input).

(** The closure [attrStringToMap] of [sameAttributes]. *)
Definition attrStringToMap (index : Index) : option (gmap string string) :=
  let result : gmap string string :=
    if String.eqb (Type_ index) "VECTOR"
    then <["DISTANCE" := "euclidean"]> (<["M" := "6"]> ∅)
    else ∅ in
  kvs ← splitAttributes (Attributes index);
  Some (fold_left
          (λ (result : gmap string string) kv,
             let '(k, v, _) := Cut kv "=" in
             <[ToUpper (stripAnyQuote k) := ToLower (stripAnyQuote v)]> result)
          kvs result).

Definition sameAttributes (idx other : Index) : option bool :=
  if String.eqb (Attributes idx) (Attributes other) then Some true
  else
    attrs1 ← attrStringToMap idx;
    attrs2 ← attrStringToMap other;
    Some (bool_decide (attrs1 = attrs2)).

(** [a && b] where [b] is only evaluated when [a] is true. *)
Definition and_then (a : option bool) (b : option bool) : option bool :=
  match a with
  | Some true => b
  | Some false => Some false
  | None => None
  end.

Definition Equivalent (idx other : option Index) : option bool :=
  match idx, other with
  | Some idx, Some other =>
    if negb (Bool.eqb (PrimaryKey idx) (PrimaryKey other))
       || negb (Bool.eqb (Unique idx) (Unique other))
       || negb (String.eqb (Type_ idx) (Type_ other))
       || negb (String.eqb (FullTextParser idx) (FullTextParser other))
    then Some false
    else and_then (sameParts idx other) (sameAttributes idx other)
  | None, None => Some true
  | _, _ => Some false
  end.

Definition Equals (idx other : option Index) : option bool :=
  match idx, other with
  | Some i, Some o =>
    if String.eqb (Name i) (Name o) && String.eqb (Comment i) (Comment o)
       && Bool.eqb (Invisible i) (Invisible o)
    then Equivalent idx other
    else Some false
  | None, None => Some true
  | _, _ => Some false
  end.

(** The final loop of [RedundantTo], from index [n] on. *)
Fixpoint redundant_from (n : nat) (mine other : list IndexPart) : option bool :=
  match mine with
  | [] => Some true
  | part :: rest =>
    o ← other !! n;
    if negb (String.eqb (ColumnName part) (ColumnName o))
       || negb (String.eqb (Expression part) (Expression o))
       || negb (Bool.eqb (Descending part) (Descending o))
    then Some false
    else
      let partPrefix := PrefixLength part in
      let otherPrefix := PrefixLength o in
      if (otherPrefix >? 0)%Z && ((partPrefix =? 0)%Z || (partPrefix >? otherPrefix)%Z)
      then Some false
      else redundant_from (S n) rest other
  end.

Definition RedundantTo (idx other : option Index) : option bool :=
  match idx, other with
  | Some idx, Some other =>
    if PrimaryKey idx || (Unique idx && negb (Unique other))
       || negb (String.eqb (Type_ idx) (Type_ other))
       || negb (String.eqb (FullTextParser idx) (FullTextParser other))
    then Some false
    else if negb (Invisible idx) && Invisible other then Some false
    else if Unique idx && Unique other then sameParts idx other
    else if String.eqb (Type_ idx) "VECTOR"
    then and_then (sameParts idx other) (sameAttributes idx other)
    else if String.eqb (Type_ idx) "FULLTEXT"
            && negb (length (Parts idx) =? length (Parts other))%nat
    then Some false
    else if (length (Parts other) <? length (Parts idx))%nat then Some false
    else redundant_from 0 (Parts idx) (Parts other)
  | _, _ => Some false
  end.

End WithLexing.

(** *** longestIncreasingSubsequence *)

(** [copy(dst, src)]: the first [min (len dst) (len src)] elements of
    [dst] are overwritten. *)
Definition go_copy (dst src : list Z) : list Z :=
  take (length dst) src ++ drop (length src) dst.

(** [dst[i] = v], which panics when [i] is out of range. *)
Definition store (dst : list Z) (i : nat) (v : Z) : option (list Z) :=
  _ ← dst !! i; Some (<[i := v]> dst).

(** The innermost loop, [for j := len(candidateLists) - 2; j >= 0; j--],
    with [k = j + 1]. *)
Fixpoint lis_inner (candidateLists : list (list Z)) (comp : Z) (k : nat)
    : option (list (list Z)) :=
  match k with
  | O => Some candidateLists
  | S j =>
    thisList ← candidateLists !! j;
    nextList ← candidateLists !! (j + 1)%nat;
    tail ← thisList !! (length thisList - 1)%nat;
    if (comp >? tail)%Z then
      nextList' ← store (go_copy nextList thisList) (length nextList - 1) comp;
      Some (<[(j + 1)%nat := nextList']> candidateLists)
    else lis_inner candidateLists comp j
  end.

(** The body of [for i := 1; i < len(input); i++] with [comp = input[i]]. *)
Definition lis_step (candidateLists : list (list Z)) (comp : Z)
    : option (list (list Z)) :=
  first ← candidateLists !! 0%nat;
  first0 ← first !! 0%nat;
  if (comp <? first0)%Z then
    Some (<[0%nat := <[0%nat := comp]> first]> candidateLists)
  else
    longestList ← candidateLists !! (length candidateLists - 1)%nat;
    tail ← longestList !! (length longestList - 1)%nat;
    if (comp >? tail)%Z then
      let newList := go_copy (replicate (length longestList + 1) 0%Z) longestList in
      newList ← store newList (length longestList) comp;
      Some (candidateLists ++ [newList])%list
    else lis_inner candidateLists comp (length candidateLists - 1).

Fixpoint lis_loop (candidateLists : list (list Z)) (rest : list Z)
    : option (list (list Z)) :=
  match rest with
  | [] => Some candidateLists
  | comp :: rest' =>
    candidateLists' ← lis_step candidateLists comp;
    lis_loop candidateLists' rest'
  end.

(** [None] stands for a panic (an index out of range). *)
Definition longestIncreasingSubsequence (input : list Z) : option (list Z) :=
  if (length input <? 2)%nat then Some input
  else
    match input with
    | [] => None
    | x0 :: rest =>
      candidateLists ← lis_loop [[x0]] rest;
      candidateLists !! (length candidateLists - 1)%nat
    end.

(** Example indexes: [KEY(a)], [KEY(a, b)], their unique, full-text and
    invisible variants, and a vector index without attributes. *)
Definition part_a : IndexPart := mkIndexPart "a" "" 0 false.
Definition part_b : IndexPart := mkIndexPart "b" "" 0 false.
Definition key_a : Index := mkIndex "A" [part_a] false false false "" "BTREE" "" "".
Definition key_ab : Index := mkIndex "B" [part_a; part_b] false false false "" "BTREE" "" "".
Definition key_ab_invisible : Index :=
  mkIndex "B" [part_a; part_b] false false true "" "BTREE" "" "".
Definition fulltext_a : Index := mkIndex "A" [part_a] false false false "" "FULLTEXT" "" "".
Definition fulltext_ab : Index :=
  mkIndex "B" [part_a; part_b] false false false "" "FULLTEXT" "" "".
Definition unique_a : Index := mkIndex "U1" [part_a] false true false "" "BTREE" "" "".
Definition unique_ab : Index := mkIndex "U2" [part_a; part_b] false true false "" "BTREE" "" "".
Definition example_vector : Index :=
  mkIndex "v" [mkIndexPart "embedding" "" 0 false] false false false "" "VECTOR" "" "".
Definition example_vector_m8 : Index :=
  mkIndex "v" [mkIndexPart "embedding" "" 10 true] false false true "" "VECTOR" "" "M=8".

(** Strictly increasing and non-decreasing lists. *)
Definition increasing (l : list Z) : Prop := StronglySorted Z.lt l.
Definition nondecreasing (l : list Z) : Prop := StronglySorted Z.le l.

(** The attributes a VECTOR index has when none is written. *)
Definition vector_defaults : gmap string string :=
  <["DISTANCE" := "euclidean"]> (<["M" := "6"]> ∅).

(** After the prefix [p] of the input has been read: list number [k] is
    an increasing subsequence of [p] with [k + 1] elements, and its last
    element is the least one any such subsequence can end with. *)
Record lis_inv (p : list Z) (c : list (list Z)) : Prop := mk_lis_inv {
  inv_len : (0 < length c)%nat;
  inv_cand : ∀ k l, c !! k = Some l →
             length l = S k ∧ increasing l ∧ sublist l p;
  inv_min : ∀ s u, increasing (s ++ [u])%list → sublist (s ++ [u])%list p →
            ∃ l t, c !! length s = Some (l ++ [t])%list ∧ (t <= u)%Z
}.

(** *** Escaping, SQL modes and DSNs *)

(** [strings.ReplaceAll(s, old, new)] where [old] is one byte. *)
Fixpoint ReplaceAll_byte (s : string) (old : ascii) (new : string) : string :=
  match s with
  | EmptyString => EmptyString
  | String c rest =>
    (if Ascii.eqb c old then new else String c "") ++ ReplaceAll_byte rest old new
  end.

Definition EscapeIdentifier (input : string) : string :=
  "`" ++ ReplaceAll_byte input backtick "``" ++ "`".

Definition backslash : ascii := ascii_of_nat 92.
Definition NUL : ascii := ascii_of_nat 0.
Definition LFb : ascii := ascii_of_nat 10.
Definition CRb : ascii := ascii_of_nat 13.

(** What [replacerCreateTableString] writes for one byte.  All five old
    strings of the replacer are single bytes, so [Replace] works byte by
    byte. *)
Definition replaceCreateTableByte (c : ascii) : string :=
  if Ascii.eqb c backslash then "\\"
  else if Ascii.eqb c NUL then "\0"
  else if Ascii.eqb c squote then "''"
  else if Ascii.eqb c LFb then "\n"
  else if Ascii.eqb c CRb then "\r"
  else String c "".

Fixpoint EscapeValueForCreateTable (input : string) : string :=
  match input with
  | EmptyString => EmptyString
  | String c rest => replaceCreateTableByte c ++ EscapeValueForCreateTable rest
  end.

(** [strings.Split(s, sep)] and [strings.SplitAfter(s, sep)] where [sep]
    is one byte: the pieces between the separators, of which there is
    always at least one; [SplitAfter] leaves each separator at the end of
    the piece before it. *)
Fixpoint Split_byte (s : string) (sep : ascii) : list string :=
  match s with
  | EmptyString => [EmptyString]
  | String c rest =>
    if Ascii.eqb c sep then EmptyString :: Split_byte rest sep
    else match Split_byte rest sep with
         | piece :: pieces => String c piece :: pieces
         | [] => [String c ""]
         end
  end.

Fixpoint SplitAfter_byte (s : string) (sep : ascii) : list string :=
  match s with
  | EmptyString => [EmptyString]
  | String c rest =>
    if Ascii.eqb c sep then String c "" :: SplitAfter_byte rest sep
    else match SplitAfter_byte rest sep with
         | piece :: pieces => String c piece :: pieces
         | [] => [String c ""]
         end
  end.

(** [strings.Join] *)
Fixpoint Join (elems : list string) (sep : string) : string :=
  match elems with
  | [] => ""
  | [e] => e
  | e :: rest => e ++ sep ++ Join rest sep
  end.

(** [baseDSN]; [tokens[0:len(tokens)-1]] is [take (length tokens - 1)]. *)
Definition baseDSN (dsn : string) : string :=
  let tokens := SplitAfter_byte dsn "/"%char in
  Join (take (length tokens - 1) tokens) "".

(** [sqlModeFilter], a [map[string]bool]; a missing key reads as false. *)
Definition flagged (remove : gmap string bool) (mode : string) : bool :=
  default false (remove !! mode).

Definition filterSQLMode (origModes : list string) (remove : gmap string bool)
    : list string :=
  List.filter (λ mode, negb (flagged remove mode)) origModes.

Definition FilterSQLMode (orig : string) (remove : gmap string bool) : string :=
  if String.eqb orig "" then ""
  else
    let origModes := Split_byte orig ","%char in
    let keepModes := filterSQLMode origModes remove in
    if (length keepModes =? length origModes)%nat then orig
    else Join keepModes ",".

Definition IntrospectionBadSQLModes : gmap string bool :=
  list_to_map [("ANSI", true); ("ANSI_QUOTES", true); ("NO_FIELD_OPTIONS", true);
               ("NO_KEY_OPTIONS", true); ("NO_TABLE_OPTIONS", true);
               ("IGNORE_BAD_TABLE_OPTIONS", true)].

Definition NonPortableSQLModes : gmap string bool :=
  list_to_map [("NO_AUTO_CREATE_USER", true); ("NO_FIELD_OPTIONS", true);
               ("NO_KEY_OPTIONS", true); ("NO_TABLE_OPTIONS", true);
               ("DB2", true); ("MAXDB", true); ("MSSQL", true);
               ("MYSQL323", true); ("MYSQL40", true); ("ORACLE", true);
               ("POSTGRESQL", true); ("TIME_TRUNCATE_FRACTIONAL", true);
               ("IGNORE_BAD_TABLE_OPTIONS", true); ("EMPTY_STRING_IS_NULL", true);
               ("SIMULTANEOUS_ASSIGNMENT", true); ("TIME_ROUND_FRACTIONAL", true)].

(** The byte [c] occurs in [s]. *)
Fixpoint has_byte (c : ascii) (s : string) : bool :=
  match s with
  | EmptyString => false
  | String x rest => Ascii.eqb x c || has_byte c rest
  end.

(** Every [q] of [s] is one of a pair: reading from the left, a [q] is
    always followed at once by a second one. *)
Fixpoint paired (q : ascii) (s : string) : bool :=
  match s with
  | EmptyString => true
  | String c rest =>
    if Ascii.eqb c q then
      match rest with
      | String c' rest' => Ascii.eqb c' q && paired q rest'
      | EmptyString => false
      end
    else paired q rest
  end.

(** [s] holds none of the five bytes [EscapeValueForCreateTable] rewrites. *)
Definition plain_value (s : string) : Prop :=
  has_byte backslash s = false ∧ has_byte NUL s = false
  ∧ has_byte squote s = false ∧ has_byte LFb s = false
  ∧ has_byte CRb s = false.

(** A token on which [splitAttributes] cannot panic: not empty, and not a
    lone double quote. *)
Definition sound_token (tok : string) : Prop :=
  tok ≠ "" ∧ tok ≠ String dquote "".

(** How [EscapeIdentifier] and [EscapeValueForCreateTable] are read back:
    used to show that they lose nothing. *)
Fixpoint undouble (q : ascii) (s : string) : string :=
  match s with
  | EmptyString => EmptyString
  | String c rest =>
    if Ascii.eqb c q then
      match rest with
      | String c' rest' =>
        if Ascii.eqb c' q then String q (undouble q rest')
        else String c (undouble q rest)
      | EmptyString => String c ""
      end
    else String c (undouble q rest)
  end.

Fixpoint unescapeCreateTable (s : string) : string :=
  match s with
  | EmptyString => EmptyString
  | String c rest =>
    match rest with
    | String c' rest' =>
      if Ascii.eqb c backslash then
        String (if Ascii.eqb c' "0"%char then NUL
                else if Ascii.eqb c' "n"%char then LFb
                else if Ascii.eqb c' "r"%char then CRb
                else c') (unescapeCreateTable rest')
      else if Ascii.eqb c squote && Ascii.eqb c' squote
      then String squote (unescapeCreateTable rest')
      else String c (unescapeCreateTable rest)
    | EmptyString => String c ""
    end
  end.

(** More example indexes: [KEY(a, b, c)], a second [KEY(a)] under another
    name, and a vector index whose attribute value is a lone double
    quote. *)
Definition part_c : IndexPart := mkIndexPart "c" "" 0 false.
Definition key_abc : Index :=
  mkIndex "C" [part_a; part_b; part_c] false false false "" "BTREE" "" "".
Definition key_a_copy : Index := mkIndex "A2" [part_a] false false false "" "BTREE" "" "".
Definition example_vector_lone_quote : Index :=
  with_Attributes example_vector ("M=" ++ String dquote "").

(** [part_covers p q]: the test the last loop of [RedundantTo] makes on a
    part [p] of the index and the part [q] of the other index at the
    same position. *)
Definition part_covers (p q : IndexPart) : Prop :=
  ColumnName p = ColumnName q ∧ Expression p = Expression q
  ∧ Descending p = Descending q
  ∧ ((0 < PrefixLength q)%Z →
     PrefixLength p ≠ 0%Z ∧ (PrefixLength p <= PrefixLength q)%Z).

(** [left_prefix a b]: [a] has no more parts than [b] and each one passes
    the test against the part of [b] at its position. *)
Definition left_prefix (a b : list IndexPart) : Prop :=
  (length a <= length b)%nat ∧ Forall2 part_covers a (take (length a) b).

(** The range of the field [PrefixLength], a [uint16]. *)
Definition prefix_lengths_in_range (l : list IndexPart) : Prop :=
  Forall (λ p, (0 <= PrefixLength p < 65536)%Z) l.

End Tengo.

(** * Properties of the statement splitter *)

Module FsProofs.
Import GoStd Fs.
Local Close Scope string_scope.

(** ** The embedding on small inputs *)

(** U+00E9 is the two bytes C3 A9; a lone continuation byte decodes to
    [RuneError] with width 1. *)
Example decode_two_bytes :
  DecodeRuneInString (String (ascii_of_nat 195) (String (ascii_of_nat 169) ""))
  = (233%N, 2).
Proof. reflexivity. Qed.

Example decode_invalid :
  DecodeRuneInString (String (ascii_of_nat 169) "x") = (RuneError, 1).
Proof. reflexivity. Qed.

Example range_offsets_skip_continuation_bytes :
  range (String (ascii_of_nat 195) (String (ascii_of_nat 169) ";"))
  = [(0, 233%N); (2, 59%N)].
Proof. reflexivity. Qed.

(** Line feeds right after a closed statement are added to its text; the
    line number of the next statement follows. *)
Example Parse_trailing_newlines sf :
  Parse sf (inr ("SELECT 1;" ++ LF ++ LF ++ "SELECT 2;")%string)
  = ([mkStatement sf 1 1 ("SELECT 1;" ++ LF ++ LF)%string;
      mkStatement sf 3 1 "SELECT 2;"], None).
Proof. reflexivity. Qed.

(** A semicolon inside quotes or inside a block comment ends nothing. *)
Example Parse_semicolon_in_quote sf :
  texts (fst (Parse sf (inr "a ';' /* ; */ b;c"%string)))
  = ["a ';' /* ; */ b;"; "c"]%string.
Proof. reflexivity. Qed.

(** ** Offsets produced by [range] *)

Lemma offsets_ok_weaken b b' rs len :
  b ≤ b' → offsets_ok b' rs len → offsets_ok b rs len.
Proof.
  destruct rs as [|[n c] rs]; simpl; intros; [lia|].
  intuition lia.
Qed.

Lemma DecodeRuneInString_size s :
  snd (DecodeRuneInString s) ≤ String.length s.
Proof.
  destruct s as [|c0 [|c1 [|c2 [|c3 s]]]]; unfold DecodeRuneInString;
    repeat (simpl; case_match); simpl; lia.
Qed.

Lemma range_from_offsets s : ∀ n skip,
  skip ≤ String.length s →
  offsets_ok (n + skip) (range_from n skip s) (n + String.length s).
Proof.
  induction s as [|c rest IH]; intros n skip Hskip.
  - simpl in *. lia.
  - destruct skip as [|k].
    + cbn [range_from].
      pose proof (DecodeRuneInString_size (String c rest)) as Hsz.
      destruct (DecodeRuneInString (String c rest)) as [r size].
      cbn [snd String.length] in Hsz. cbn [offsets_ok String.length].
      split; [lia|].
      apply offsets_ok_weaken with (b' := S n + (size - 1)); [lia|].
      replace (n + S (String.length rest)) with (S n + String.length rest) by lia.
      apply IH. lia.
    + cbn [range_from String.length] in *.
      replace (n + S k) with (S n + k) by lia.
      replace (n + S (String.length rest)) with (S n + String.length rest) by lia.
      apply IH. lia.
Qed.

Lemma range_offsets s : offsets_ok 0 (range s) (String.length s).
Proof. apply (range_from_offsets s 0 0). lia. Qed.

(** ** The scanner's invariant *)

Lemma scan_inv_init sf : scan_inv (scan_init sf) 0.
Proof. split; simpl; [lia | congruence]. Qed.

Ltac bool_facts :=
  repeat match goal with
  | H : _ && _ = true |- _ => apply andb_true_iff in H; destruct H
  | H : _ || _ = true |- _ => apply orb_true_iff in H; destruct H
  | H : _ || _ = false |- _ => apply orb_false_iff in H; destruct H
  | H : negb _ = true |- _ => apply negb_true_iff in H
  | H : negb _ = false |- _ => apply negb_false_iff in H
  | H : (_ =? _)%N = true |- _ => apply N.eqb_eq in H
  | H : (_ =? _)%N = false |- _ => apply N.eqb_neq in H
  | H : (_ <? _)%N = true |- _ => apply N.ltb_lt in H
  | H : (_ <? _)%N = false |- _ => apply N.ltb_ge in H
  | H : (_ =? _)%nat = true |- _ => apply Nat.eqb_eq in H
  | H : (_ =? _)%nat = false |- _ => apply Nat.eqb_neq in H
  | H : (_ <? _)%nat = true |- _ => apply Nat.ltb_lt in H
  | H : (_ <? _)%nat = false |- _ => apply Nat.ltb_ge in H
  end.

Lemma step_inv sf contents last st n c b :
  scan_inv st b → b ≤ n →
  scan_inv (step sf contents last st (n, c)) (S n).
Proof.
  intros [Hle Hq] Hb. unfold scan_inv, is_quote_rune in *.
  unfold step, dispatch.
  repeat (case_match; cbn -[N.eqb N.ltb Nat.eqb Nat.ltb Z.ltb Z.leb] in * );
    bool_facts; subst;
    (split;
     [ lia
     | intros Hne;
       first [ congruence
             | destruct (Hq Hne); split; [lia | tauto]
             | split; [lia | tauto] ] ]).
Qed.

Lemma run_inv sf contents rs : ∀ rs2 st b,
  scan_inv st b →
  offsets_ok b (rs ++ rs2) (String.length contents) →
  ∃ b', scan_inv (run sf contents rs st) b'
        ∧ offsets_ok b' rs2 (String.length contents).
Proof.
  induction rs as [|[n c] rs IH]; intros rs2 st b Hinv Hoff.
  - exists b. auto.
  - cbn [app offsets_ok] in Hoff. destruct Hoff as [Hb Hoff].
    unfold run. cbn [fold_left].
    apply (IH rs2 _ (S n)); [|exact Hoff].
    eapply step_inv; eauto.
Qed.

Lemma run_app sf contents rs1 rs2 st :
  run sf contents (rs1 ++ rs2) st = run sf contents rs2 (run sf contents rs1 st).
Proof. unfold run. apply fold_left_app. Qed.

Lemma substring_length s : ∀ n m,
  n + m ≤ String.length s → String.length (substring n m s) = m.
Proof.
  induction s as [|c s IH]; intros [|n] [|m] H; simpl in *; try lia.
  - rewrite (IH 0 m); lia.
  - apply IH. lia.
  - apply IH. lia.
Qed.

(** ** The backslash outside quotes and comments *)

Lemma step_backslash sf contents last st n :
  normal st →
  let st1 := step sf contents last st (n, 92%N) in
  escapeNext st1 = true ∧ inQuote st1 = 0%N ∧ inLineComment st1 = false
  ∧ inCComment st1 = false ∧ startStatement st1 = startStatement st.
Proof.
  intros (Hq & Hl & Hc & He). unfold step, dispatch.
  cbn -[Nat.ltb]. rewrite Hl, Hc, He, Hq. cbn -[Nat.ltb].
  rewrite !andb_false_r. cbn -[Nat.ltb].
  repeat (case_match; cbn -[Nat.ltb]); auto.
Qed.

Lemma step_escaped sf contents last st n c :
  escapeNext st = true → inQuote st = 0%N → inLineComment st = false →
  inCComment st = false → startStatement st < n →
  let st2 := step sf contents last st (n, c) in
  inQuote st2 = 0%N ∧ inLineComment st2 = false ∧ inCComment st2 = false
  ∧ escapeNext st2 = false ∧ result st2 = result st
  ∧ startStatement st2 = startStatement st ∧ stmt st2 = stmt st
  ∧ inRelevant st2 = inRelevant st
  ∧ (c ≠ 10%N →
     st2 = set_escapeNext (set_charNo st (charNo st + 1)) false).
Proof.
  intros He Hq Hl Hc Hlt. unfold step.
  destruct (c =? 10)%N eqn:Hnl; cbn -[Nat.eqb Z.leb].
  - replace (startStatement st =? n)%nat with false
      by (symmetry; apply Nat.eqb_neq; lia).
    rewrite andb_false_r. cbn. apply N.eqb_eq in Hnl.
    repeat (split; [auto; fail|]). intros; contradiction.
  - rewrite Hl, Hc, He. cbn. auto 12.
Qed.

Lemma step_star_after_slash sf contents last st n :
  inQuote st = 0%N → inLineComment st = false → inCComment st = false →
  escapeNext st = false → byte_at contents n = 47%N →
  inCComment (step sf contents last st (S n, 42%N)) = true.
Proof.
  intros Hq Hl Hc He Hb. unfold step. cbn -[Nat.ltb byte_at].
  rewrite Hl, Hc, He, Hq. cbn -[Nat.ltb byte_at].
  rewrite Nat.sub_0_r, Hb. reflexivity.
Qed.

(** C3, as amended.  A backslash read while the scanner is outside quotes
    and comments, with no escape pending, sets the escape state, and the
    character right after it is passed over when it is read: whatever
    that character is, reading it opens no quote (and none is open to be
    closed), enters neither comment state, closes off no statement (the
    result sequence, the pending statement and its start offset are
    unchanged) and leaves the escape state cleared; unless it is a line
    feed, reading it changes nothing but the escape state and the column
    counter.  This holds at every such backslash of every input.  The
    byte passed over is still there for the look-behind of the next
    character: when it is a slash, a star right after it opens a block
    comment. *)
Theorem backslash_skips_next_character sf contents pre n n' c post :
  range contents = pre ++ (n, 92%N) :: (n', c) :: post →
  normal (run sf contents pre (scan_init sf)) →
  let last := (Z.of_nat (String.length contents) - 1)%Z in
  let st1 := step sf contents last (run sf contents pre (scan_init sf)) (n, 92%N) in
  let st2 := step sf contents last st1 (n', c) in
  run sf contents (pre ++ [(n, 92%N); (n', c)]) (scan_init sf) = st2
  ∧ escapeNext st1 = true
  ∧ inQuote st2 = 0%N ∧ inLineComment st2 = false ∧ inCComment st2 = false
  ∧ escapeNext st2 = false
  ∧ result st2 = result st1 ∧ stmt st2 = stmt st1
  ∧ startStatement st2 = startStatement st1
  ∧ inRelevant st2 = inRelevant st1
  ∧ (c ≠ 10%N →
     st2 = set_escapeNext (set_charNo st1 (charNo st1 + 1)) false)
  ∧ (byte_at contents n' = 47%N →
     inCComment (step sf contents last st2 (S n', 42%N)) = true).
Proof.
  intros Hrange Hnormal last st1 st2.
  pose proof (range_offsets contents) as Hoff. rewrite Hrange in Hoff.
  destruct (run_inv sf contents pre _ _ 0 (scan_inv_init sf) Hoff)
    as (b & [Hle _] & Hoff').
  cbn [offsets_ok] in Hoff'. destruct Hoff' as (Hb & Hn & _).
  destruct (step_backslash sf contents last _ n Hnormal)
    as (He1 & Hq1 & Hl1 & Hc1 & Hs1).
  fold st1 in He1, Hq1, Hl1, Hc1, Hs1.
  assert (Hlt : (startStatement st1 < n')%nat) by lia.
  destruct (step_escaped sf contents last st1 n' c He1 Hq1 Hl1 Hc1 Hlt)
    as (Hq2 & Hl2 & Hc2 & He2 & ? & ? & ? & ? & ?).
  fold st2 in Hq2, Hl2, Hc2, He2.
  split; [rewrite run_app; reflexivity|].
  repeat (split; [assumption|]).
  intros Hslash. apply step_star_after_slash; assumption.
Qed.

(** The theorem at the input [\;]: the semicolon after the backslash ends
    no statement. *)
Lemma backslash_skips_next_character_witness :
  normal (run example_file "\;" [] (scan_init example_file))
  ∧ escapeNext (step example_file "\;" 1 (scan_init example_file) (0, 92%N)) = true
  ∧ result (run example_file "\;" (range "\;") (scan_init example_file)) = [].
Proof.
  assert (Hn : normal (run example_file "\;" [] (scan_init example_file)))
    by (repeat split).
  destruct (backslash_skips_next_character example_file "\;" [] 0 1 59%N []
              eq_refl Hn) as (Hrun & H1 & _ & _ & _ & _ & H3 & _).
  split; [exact Hn|]. split; [exact H1|].
  change (range "\;") with ([] ++ [(0, 92%N); (1, 59%N)]).
  rewrite Hrun, H3. reflexivity.
Defined.

(** C3 as stated fails at [\/*;]: the backslash is read outside quotes
    and comments, the slash after it is passed over, and yet the comment
    opener made of that slash and the star is honoured: the block comment
    state is entered on the star, the semicolon ends nothing and the file
    is reported as having an unterminated comment.  With a letter in place
    of the slash there is no comment and the semicolon ends the
    statement: what the escaped character is does matter. *)
Lemma backslash_skips_next_character_counterexample :
  range "\/*;" = [(0, 92%N); (1, 47%N); (2, 42%N); (3, 59%N)]
  ∧ normal (scan_init example_file)
  ∧ inCComment (run example_file "\/*;" (take 2 (range "\/*;"))
                  (scan_init example_file)) = false
  ∧ inCComment (run example_file "\/*;" (take 3 (range "\/*;"))
                  (scan_init example_file)) = true
  ∧ Parse example_file (inr "\/*;"%string) =
      ([mkStatement example_file 1 1 "\/*;"],
       Some (Errorf "File %s has unterminated C-style comment"
               [ArgFile example_file]))
  ∧ Parse example_file (inr "\a*;"%string) =
      ([mkStatement example_file 1 1 "\a*;"], None).
Proof. repeat split. Qed.

(** ** Unterminated quote *)

(** C5. When the loop ends with a quote still open, [Parse] returns the
    error built from the file and the open quote character, which is one
    of the three quote characters, together with the statements collected
    by the loop followed by one more statement holding the dangling text,
    which is not empty. *)
Theorem Parse_unterminated_quote sf contents :
  inQuote (final_scan sf contents) ≠ 0%N →
  Parse sf (inr contents) =
    (result (final_scan sf contents)
       ++ [with_Text (stmt (final_scan sf contents))
             (slice_from contents (startStatement (final_scan sf contents)))],
     Some (Errorf "File %s has unterminated quote %c"
             [ArgFile sf; ArgRune (inQuote (final_scan sf contents))]))
  ∧ slice_from contents (startStatement (final_scan sf contents)) ≠ ""%string
  ∧ is_quote_rune (inQuote (final_scan sf contents)).
Proof.
  intros Hq.
  pose proof (range_offsets contents) as Hoff.
  rewrite <- (app_nil_r (range contents)) in Hoff.
  destruct (run_inv sf contents (range contents) [] _ 0 (scan_inv_init sf) Hoff)
    as (b & [Hle Hopen] & Hb).
  fold (final_scan sf contents) in Hle, Hopen.
  cbn [offsets_ok] in Hb. destruct (Hopen Hq) as [Hlt Hrune].
  assert (Hlen : String.length (slice_from contents
                   (startStatement (final_scan sf contents))) ≠ 0).
  { unfold slice_from. rewrite substring_length; lia. }
  split; [|split; [|exact Hrune]].
  - unfold Parse, finish. cbn [Text with_Text].
    destruct (inQuote (final_scan sf contents) =? 0)%N eqn:E;
      [apply N.eqb_eq in E; contradiction|].
    cbn [negb].
    destruct (0 <? String.length _)%nat eqn:E2; [reflexivity|].
    apply Nat.ltb_ge in E2. lia.
  - intros Hempty. rewrite Hempty in Hlen. auto.
Qed.

(** The theorem at the input [SELECT 'abc]. *)
Lemma Parse_unterminated_quote_witness :
  inQuote (final_scan example_file "SELECT 'abc") ≠ 0%N
  ∧ Parse example_file (inr "SELECT 'abc"%string) =
      ([mkStatement example_file 1 1 "SELECT 'abc"],
       Some (Errorf "File %s has unterminated quote %c"
               [ArgFile example_file; ArgRune 39%N])).
Proof.
  assert (H : inQuote (final_scan example_file "SELECT 'abc") ≠ 0%N)
    by (vm_compute; congruence).
  split; [exact H|].
  destruct (Parse_unterminated_quote example_file "SELECT 'abc" H) as (-> & _).
  reflexivity.
Defined.

(** ** Concrete inputs *)

(** C4. [SELECT 'a''b';] comes back as one statement holding the whole
    input, and no error: the doubled quote does not end the quoted text.
    Once the first quote of the pair (offset 9) is read the quote is still
    open and the escape state is set; once the second one (offset 10) is
    read the quote is still open and the escape state is cleared. *)
Theorem Parse_doubled_quote sf :
  Parse sf (inr "SELECT 'a''b';"%string)
  = ([mkStatement sf 1 1 "SELECT 'a''b';"], None)
  ∧ inQuote (run sf "SELECT 'a''b';" (take 10 (range "SELECT 'a''b';"))
               (scan_init sf)) = 39%N
  ∧ escapeNext (run sf "SELECT 'a''b';" (take 10 (range "SELECT 'a''b';"))
                  (scan_init sf)) = true
  ∧ inQuote (run sf "SELECT 'a''b';" (take 11 (range "SELECT 'a''b';"))
               (scan_init sf)) = 39%N
  ∧ escapeNext (run sf "SELECT 'a''b';" (take 11 (range "SELECT 'a''b';"))
                  (scan_init sf)) = false.
Proof. repeat split. Qed.

(** C1, at the input made of a space and a semicolon: the gap before the
    semicolon is returned as a statement of its own and again at the head
    of the statement closed by the semicolon, so the texts do not add up
    to the input. *)
Theorem Parse_gap_returned_twice sf :
  texts (fst (Parse sf (inr " ;"%string))) = [" "; " ;"]%string
  ∧ concat_texts (fst (Parse sf (inr " ;"%string))) ≠ " ;"%string.
Proof. split; [reflexivity | vm_compute; discriminate]. Qed.

(** C2, at the input of the claim: the two dashes are read as statement
    text before the space after them starts the comment, so no gap is
    split off and one statement holds the comment and the query. *)
Theorem Parse_dash_comment_not_split sf :
  Parse sf (inr ("-- comment" ++ LF ++ "SELECT 1;")%string)
  = ([mkStatement sf 1 1 ("-- comment" ++ LF ++ "SELECT 1;")%string], None).
Proof. reflexivity. Qed.

(** A comment opened by [#] is split off, as the comment in the code says
    of white space and comments; the statement after it then starts over
    from the same offset. *)
Example Parse_hash_comment sf :
  texts (fst (Parse sf (inr ("# comment" ++ LF ++ "SELECT 1;")%string)))
  = [("# comment" ++ LF)%string; ("# comment" ++ LF ++ "SELECT 1;")%string].
Proof. reflexivity. Qed.

End FsProofs.

(** * Properties of the index comparisons *)

Module TengoProofs.
Import Tengo.
Local Close Scope string_scope.

(** ** The embedding on small inputs *)

Example splitAttributes_example :
  @splitAttributes model_lexing "partitioned row_format=COMPRESSED `k`=1 comment=x"
  = Some ["ROW_FORMAT=COMPRESSED"; "`k`=1"; "COMMENT=x"]%string.
Proof. reflexivity. Qed.

Example Equivalent_other_M :
  @Equivalent model_lexing (Some example_vector)
     (Some (with_Attributes example_vector "M=8")) = Some false.
Proof. reflexivity. Qed.

Example RedundantTo_primary_key_never :
  @RedundantTo model_lexing
     (Some (mkIndex "" [part_a] true true false "" "BTREE" "" ""))
     (Some unique_a) = Some false.
Proof. reflexivity. Qed.

Example RedundantTo_longer_prefix :
  @RedundantTo model_lexing
     (Some (mkIndex "i" [mkIndexPart "a" "" 20 false] false false false "" "BTREE" "" ""))
     (Some (mkIndex "j" [mkIndexPart "a" "" 10 false] false false false "" "BTREE" "" ""))
  = Some false.
Proof. reflexivity. Qed.

(** ** sameParts *)

Lemma sameParts_from_spec (mine : list IndexPart) : ∀ (other : list IndexPart) n,
  length mine + n = length other →
  sameParts_from n mine other = Some (bool_decide (mine = drop n other)).
Proof.
  induction mine as [|part rest IH]; intros other n Hlen; cbn [sameParts_from].
  - rewrite drop_ge by (simpl in Hlen; lia). reflexivity.
  - simpl in Hlen.
    destruct (lookup_lt_is_Some_2 other n) as [o Ho]; [lia|].
    rewrite Ho. cbn. rewrite (drop_S _ _ _ Ho).
    case_bool_decide as Hne.
    + f_equal. symmetry. apply bool_decide_eq_false. congruence.
    + subst o.
      rewrite (IH other (S n)) by lia. f_equal.
      apply bool_decide_ext. split; congruence.
Qed.

Lemma sameParts_spec (idx other : Index) :
  sameParts idx other = Some (bool_decide (Parts idx = Parts other)).
Proof.
  unfold sameParts.
  destruct (length (Parts idx) =? length (Parts other))%nat eqn:E; cbn [negb].
  - apply Nat.eqb_eq in E. rewrite sameParts_from_spec by lia. reflexivity.
  - apply Nat.eqb_neq in E. f_equal. symmetry.
    apply bool_decide_eq_false. congruence.
Qed.

(** ** The prefix loop of RedundantTo *)

Lemma redundant_from_self (mine : list IndexPart) : ∀ pre : list IndexPart,
  redundant_from (length pre) mine (pre ++ mine) = Some true.
Proof.
  induction mine as [|part rest IH]; intros pre; cbn [redundant_from]; [reflexivity|].
  rewrite list_lookup_middle by reflexivity. cbn.
  rewrite !String.eqb_refl, Bool.eqb_reflx. cbn [negb orb].
  replace ((PrefixLength part >? 0)%Z
           && ((PrefixLength part =? 0)%Z
               || (PrefixLength part >? PrefixLength part)%Z))
    with false.
  - specialize (IH (pre ++ [part])).
    rewrite length_app in IH. cbn [length] in IH.
    rewrite <- app_assoc in IH. cbn [app] in IH.
    replace (S (length pre)) with (length pre + 1) by lia. exact IH.
  - symmetry. destruct (PrefixLength part >? 0)%Z eqn:E; [|reflexivity].
    cbn [andb]. apply orb_false_iff. rewrite Z.gtb_ltb in *.
    split; [apply Z.eqb_neq | apply Z.ltb_ge]; lia.
Qed.

Section WithLexing.
Context {L : Lexing}.

Lemma sameAttributes_self (idx : Index) : sameAttributes idx idx = Some true.
Proof. unfold sameAttributes. rewrite String.eqb_refl. reflexivity. Qed.

(** C10. Every index that is not a primary key is redundant to itself,
    whatever its uniqueness, type, visibility, parts, prefix lengths and
    attribute string. *)
Theorem RedundantTo_reflexive (a : Index) :
  PrimaryKey a = false → RedundantTo (Some a) (Some a) = Some true.
Proof.
  intros Hpk. unfold RedundantTo. rewrite Hpk, !String.eqb_refl.
  cbn [negb orb]. rewrite andb_negb_r, andb_negb_l. cbn [orb].
  rewrite andb_diag. destruct (Unique a).
  - rewrite sameParts_spec. f_equal. apply bool_decide_eq_true. reflexivity.
  - destruct (String.eqb (Type_ a) "VECTOR").
    + rewrite sameParts_spec, bool_decide_eq_true_2 by reflexivity.
      cbn [and_then]. apply sameAttributes_self.
    + rewrite Nat.eqb_refl, andb_false_r, Nat.ltb_irrefl.
      apply (redundant_from_self (Parts a) []).
Qed.

(** C7. For two unique indexes of the same type, the first not a primary
    key, redundancy holds only when the parts are the same, element for
    element; a unique index on one part is not redundant to a unique index
    on two. *)
Theorem unique_redundant_needs_same_parts (a b : Index) :
  Unique a = true → Unique b = true → PrimaryKey a = false →
  Type_ a = Type_ b →
  (RedundantTo (Some a) (Some b) = Some true → Parts a = Parts b)
  ∧ (∀ pa pa' pb, Parts a = [pa] → Parts b = [pa'; pb] →
       RedundantTo (Some a) (Some b) = Some false).
Proof.
  intros Hua Hub Hpk Hty.
  assert (Hform : RedundantTo (Some a) (Some b) = Some false
                  ∨ RedundantTo (Some a) (Some b)
                    = Some (bool_decide (Parts a = Parts b))).
  { unfold RedundantTo. rewrite Hua, Hub, Hpk. cbn [negb andb orb].
    repeat case_match; auto using sameParts_spec. }
  split.
  - intros Hred. destruct Hform as [H|H]; rewrite H in Hred; [discriminate|].
    injection Hred as Hred. apply bool_decide_eq_true in Hred. exact Hred.
  - intros pa pa' pb Ha Hb. destruct Hform as [H|H]; [exact H|].
    rewrite H. f_equal. apply bool_decide_eq_false. rewrite Ha, Hb. discriminate.
Qed.

(** C6, as amended.  [a] has the single part [pa], [b] the parts [pa'],
    [pb], the two first parts agree on column, expression and direction
    and have no prefix length; neither index is unique or a primary key
    and both have the same type and parser.  Then [b] is not redundant to
    [a]; and [a] is redundant to [b] when the type is neither VECTOR nor
    FULLTEXT and [b] is not an invisible index next to a visible [a], and
    is not redundant to [b] otherwise. *)
Theorem RedundantTo_left_prefix (a b : Index) (pa pa' pb : IndexPart) :
  PrimaryKey a = false → PrimaryKey b = false →
  Unique a = false → Unique b = false →
  Type_ a = Type_ b → FullTextParser a = FullTextParser b →
  Parts a = [pa] → Parts b = [pa'; pb] →
  ColumnName pa = ColumnName pa' → Expression pa = Expression pa' →
  Descending pa = Descending pa' →
  PrefixLength pa = 0%Z → PrefixLength pa' = 0%Z →
  RedundantTo (Some b) (Some a) = Some false
  ∧ (Type_ a ≠ "VECTOR"%string → Type_ a ≠ "FULLTEXT"%string →
     (Invisible b = true → Invisible a = true) →
     RedundantTo (Some a) (Some b) = Some true)
  ∧ (Type_ a = "VECTOR"%string ∨ Type_ a = "FULLTEXT"%string
     ∨ (Invisible a = false ∧ Invisible b = true) →
     RedundantTo (Some a) (Some b) = Some false).
Proof.
  intros Hpa Hpb Hua Hub Hty Hft Ha Hb Hcol Hexp Hdesc Hpre Hpre'.
  unfold RedundantTo.
  rewrite !sameParts_spec, Hpa, Hpb, Hua, Hub, <- Hty, <- Hft, !String.eqb_refl, Ha, Hb.
  rewrite (bool_decide_eq_false_2 ([pa'; pb] = [pa])) by discriminate.
  rewrite (bool_decide_eq_false_2 ([pa] = [pa'; pb])) by discriminate.
  cbn [negb andb orb and_then length Nat.eqb Nat.ltb Nat.leb andb].
  split; [|split].
  - repeat case_match; reflexivity.
  - intros Hv Hf Hinv.
    apply String.eqb_neq in Hv, Hf. rewrite Hv, Hf. cbn [andb].
    destruct (Invisible a) eqn:Ea, (Invisible b) eqn:Eb; cbn [negb andb];
      try (specialize (Hinv eq_refl); discriminate);
      cbn; rewrite Hcol, Hexp, Hdesc, !String.eqb_refl, Bool.eqb_reflx, Hpre';
      reflexivity.
  - intros [Hv | [Hf | [Hia Hib]]].
    + rewrite Hv. cbn. destruct (negb (Invisible a) && Invisible b); reflexivity.
    + rewrite Hf. cbn. destruct (negb (Invisible a) && Invisible b); reflexivity.
    + rewrite Hia, Hib. reflexivity.
Qed.

End WithLexing.

(** The theorem at an invisible vector index with a descending prefix
    part and an attribute. *)
Lemma RedundantTo_reflexive_witness :
  PrimaryKey example_vector_m8 = false
  ∧ @RedundantTo model_lexing (Some example_vector_m8) (Some example_vector_m8) = Some true.
Proof. split; [reflexivity|]. apply (@RedundantTo_reflexive model_lexing). reflexivity. Defined.

(** The theorem at [UNIQUE(a)] and [UNIQUE(a, b)]. *)
Lemma unique_redundant_needs_same_parts_witness :
  @RedundantTo model_lexing (Some unique_a) (Some unique_ab) = Some false.
Proof.
  exact (proj2 (@unique_redundant_needs_same_parts model_lexing unique_a unique_ab
                  eq_refl eq_refl eq_refl eq_refl)
               part_a part_a part_b eq_refl eq_refl).
Defined.

(** ** Attribute strings *)

Ltac by_byte_cases c :=
  destruct c as [[] [] [] [] [] [] [] []]; vm_compute; auto.

Lemma upper_byte_letter c : is_letter (upper_byte c) = true → is_letter c = true.
Proof.
  by_byte_cases c.
Qed.

Lemma lower_byte_letter c : is_letter (lower_byte c) = true → is_letter c = true.
Proof.
  by_byte_cases c.
Qed.

Lemma letter_bare c :
  is_letter c = true →
  is_blank c = false ∧ Ascii.eqb c "="%char = false ∧ is_quote c = false.
Proof.
  by_byte_cases c.
Qed.

Lemma ToUpper_letters s : ∀ u, ToUpper s = u → letters u = true → letters s = true.
Proof.
  induction s as [|c s IH]; intros u Hu Hl; [reflexivity|].
  cbn [ToUpper] in Hu. subst u. cbn [letters] in *.
  apply andb_true_iff in Hl. destruct Hl as [Hc Hs].
  rewrite (upper_byte_letter _ Hc), (IH _ eq_refl Hs). reflexivity.
Qed.

Lemma ToLower_letters s : ∀ u, ToLower s = u → letters u = true → letters s = true.
Proof.
  induction s as [|c s IH]; intros u Hu Hl; [reflexivity|].
  cbn [ToLower] in Hu. subst u. cbn [letters] in *.
  apply andb_true_iff in Hl. destruct Hl as [Hc Hs].
  rewrite (lower_byte_letter _ Hc), (IH _ eq_refl Hs). reflexivity.
Qed.

Lemma letters_bareword s : letters s = true → bareword s = true.
Proof.
  induction s as [|c s IH]; [reflexivity|]. cbn [letters bareword].
  intros H. apply andb_true_iff in H. destruct H as [Hc Hs].
  destruct (letter_bare c Hc) as (-> & -> & ->). rewrite (IH Hs). reflexivity.
Qed.

Lemma letters_unquoted s : letters s = true → s ≠ ""%string → unquoted s.
Proof.
  destruct s as [|c s]; [congruence|]. cbn [letters unquoted]. intros H _.
  apply andb_true_iff in H. destruct H as [Hc _].
  apply (letter_bare c Hc).
Qed.

Lemma ToUpper_nonempty s u : ToUpper s = u → u ≠ ""%string → s ≠ ""%string.
Proof. intros <- H ->. apply H. reflexivity. Qed.

Lemma ToLower_nonempty s u : ToLower s = u → u ≠ ""%string → s ≠ ""%string.
Proof. intros <- H ->. apply H. reflexivity. Qed.

Lemma substring_all s : substring 0 (String.length s) s = s.
Proof. induction s as [|c s IH]; simpl; congruence. Qed.

Lemma get_last_is_Some c s :
  ∃ cl, get (String.length (String c s) - 1) (String c s) = Some cl.
Proof.
  revert c. induction s as [|c' s IH]; intros c; [exists c; reflexivity|].
  destruct (IH c') as [cl Hcl]. exists cl.
  cbn [String.length] in *. rewrite Nat.sub_1_r in *. cbn [Nat.pred] in *.
  exact Hcl.
Qed.

Lemma unquoted_first w :
  unquoted w →
  ∃ c cl, get 0 w = Some c ∧ get (String.length w - 1) w = Some cl
          ∧ Ascii.eqb c backtick = false ∧ Ascii.eqb c dquote = false.
Proof.
  destruct w as [|c r]; [contradiction|]. cbn [unquoted]. unfold is_quote.
  intros H. apply orb_false_iff in H. destruct H as [H H3].
  apply orb_false_iff in H. destruct H as [H1 H2].
  destruct (get_last_is_Some c r) as [cl Hcl]. exists c, cl. auto.
Qed.

(** Two [key = value] triples of unquoted tokens give two entries. *)
Lemma splitAttributes_loop_two_pairs `{L : Lexing} k1 v1 k2 v2 :
  unquoted k1 → unquoted v1 → unquoted k2 → unquoted v2 →
  splitAttributes_loop [k1; "="; v1; k2; "="; v2]%string
  = Some [(ToUpper k1 ++ "=" ++ v1)%string; (ToUpper k2 ++ "=" ++ v2)%string].
Proof.
  intros Hk1 Hv1 Hk2 Hv2.
  destruct (unquoted_first _ Hk1) as (c1 & ? & Hc1 & _ & Hb1 & _).
  destruct (unquoted_first _ Hv1) as (d1 & l1 & Hf1 & Hl1 & _ & Hd1).
  destruct (unquoted_first _ Hk2) as (c2 & ? & Hc2 & _ & Hb2 & _).
  destruct (unquoted_first _ Hv2) as (d2 & l2 & Hf2 & Hl2 & _ & Hd2).
  cbn [splitAttributes_loop].
  change (String.eqb "=" "=") with true. cbn iota.
  rewrite Hc1, Hf1, Hl1, Hc2, Hf2, Hl2. cbn [mbind option_bind].
  rewrite Hb1, Hd1, Hb2, Hd2. reflexivity.
Qed.

Section Defaults.
Context {L : Lexing}.
Hypothesis stripAnyQuote_unquoted : ∀ w, unquoted w → stripAnyQuote w = w.

Lemma attrStringToMap_empty (a : Index) :
  Type_ a = "VECTOR"%string → Attributes a = ""%string →
  attrStringToMap a = Some vector_defaults.
Proof. intros Ht Ha. unfold attrStringToMap, splitAttributes. rewrite Ht, Ha. reflexivity. Qed.

Lemma insert_M : <["M"%string := "6"%string]> vector_defaults = vector_defaults.
Proof.
  apply insert_id. unfold vector_defaults.
  rewrite lookup_insert_ne by discriminate. apply lookup_insert_eq.
Qed.

Lemma insert_DISTANCE :
  <["DISTANCE"%string := "euclidean"%string]> vector_defaults = vector_defaults.
Proof. apply insert_id. apply lookup_insert_eq. Qed.

Lemma attrStringToMap_explicit (a : Index) (km kd vd : string) :
  Type_ a = "VECTOR"%string → Attributes a ≠ ""%string →
  ToUpper km = "M"%string → ToUpper kd = "DISTANCE"%string →
  ToLower vd = "euclidean"%string →
  TokenizeString (Attributes a) = [km; "="; "6"; kd; "="; vd]%string
  ∨ TokenizeString (Attributes a) = [kd; "="; vd; km; "="; "6"]%string →
  attrStringToMap a = Some vector_defaults.
Proof.
  intros Ht Hne Hkm Hkd Hvd Htok.
  assert (Ukm : unquoted km).
  { apply letters_unquoted; [eapply ToUpper_letters; eauto
                            | eapply ToUpper_nonempty; eauto; discriminate]. }
  assert (Ukd : unquoted kd).
  { apply letters_unquoted; [eapply ToUpper_letters; eauto
                            | eapply ToUpper_nonempty; eauto; discriminate]. }
  assert (Uvd : unquoted vd).
  { apply letters_unquoted; [eapply ToLower_letters; eauto
                            | eapply ToLower_nonempty; eauto; discriminate]. }
  assert (U6 : unquoted "6") by reflexivity.
  assert (UM : unquoted "M") by reflexivity.
  assert (UD : unquoted "DISTANCE") by reflexivity.
  assert (Hcut : Cut ("DISTANCE" ++ "=" ++ vd) "=" = ("DISTANCE"%string, vd, true)).
  { assert (Hp : String.prefix "" vd = true) by (destruct vd; reflexivity).
    unfold Cut. cbv beta iota delta [String.append]. cbn. rewrite Hp. cbn.
    rewrite ?Nat.sub_0_r, substring_all. reflexivity. }
  unfold attrStringToMap, splitAttributes. rewrite Ht.
  apply String.eqb_neq in Hne. rewrite Hne.
  assert (HcutM : Cut ("M" ++ "=" ++ "6") "=" = ("M"%string, "6"%string, true))
    by reflexivity.
  destruct Htok as [-> | ->];
    rewrite splitAttributes_loop_two_pairs by assumption;
    rewrite Hkm, Hkd; cbn [mbind option_bind fold_left];
    rewrite Hcut, HcutM.
  all: rewrite !stripAnyQuote_unquoted by assumption.
  all: rewrite Hvd.
  all: change (ToUpper "M") with "M"%string;
    change (ToLower "6") with "6"%string;
    change (ToUpper "DISTANCE") with "DISTANCE"%string;
    change (String.eqb "VECTOR" "VECTOR") with true; cbn iota;
    fold vector_defaults.
  - rewrite insert_M, insert_DISTANCE. reflexivity.
  - rewrite insert_DISTANCE, insert_M. reflexivity.
Qed.

(** With no attributes on one side and the two defaults spelled out on
    the other, [sameAttributes] holds in both directions. *)
Lemma sameAttributes_vector_defaults (a : Index) (attrs km kd vd : string) :
  Type_ a = "VECTOR"%string → Attributes a = ""%string →
  ToUpper km = "M"%string → ToUpper kd = "DISTANCE"%string →
  ToLower vd = "euclidean"%string →
  TokenizeString attrs = [km; "="; "6"; kd; "="; vd]%string
  ∨ TokenizeString attrs = [kd; "="; vd; km; "="; "6"]%string →
  sameAttributes a (with_Attributes a attrs) = Some true
  ∧ sameAttributes (with_Attributes a attrs) a = Some true.
Proof.
  intros Ht Ha Hkm Hkd Hvd Htok.
  unfold sameAttributes. cbn [Attributes with_Attributes]. rewrite Ha.
  destruct (String.eqb_spec attrs "") as [->|Hne]; [split; reflexivity|].
  assert (String.eqb "" attrs = false) as -> by (apply String.eqb_neq; congruence).
  rewrite (attrStringToMap_empty a Ht Ha).
  rewrite (attrStringToMap_explicit (with_Attributes a attrs) km kd vd)
    by (cbn [Type_ Attributes with_Attributes]; auto).
  cbn [mbind option_bind]. rewrite bool_decide_eq_true_2 by reflexivity.
  split; reflexivity.
Qed.

(** C8. A VECTOR index without attributes and the same index with an
    attribute string that the tokenizer splits into [M = 6] and
    [DISTANCE = euclidean], in either order and with the keys and the
    distance value in any letter case, are equivalent, in both
    directions.  The tokenizer and [stripAnyQuote] are parameters;
    [stripAnyQuote] is assumed to return unquoted strings as they are. *)
Theorem vector_default_attributes_equivalent (a : Index) (attrs km kd vd : string) :
  Type_ a = "VECTOR"%string → Attributes a = ""%string →
  ToUpper km = "M"%string → ToUpper kd = "DISTANCE"%string →
  ToLower vd = "euclidean"%string →
  TokenizeString attrs = [km; "="; "6"; kd; "="; vd]%string
  ∨ TokenizeString attrs = [kd; "="; vd; km; "="; "6"]%string →
  Equivalent (Some a) (Some (with_Attributes a attrs)) = Some true
  ∧ Equivalent (Some (with_Attributes a attrs)) (Some a) = Some true.
Proof.
  intros Ht Ha Hkm Hkd Hvd Htok.
  destruct (sameAttributes_vector_defaults a attrs km kd vd Ht Ha Hkm Hkd Hvd Htok)
    as [H1 H2].
  unfold Equivalent. cbn [PrimaryKey Unique Type_ FullTextParser with_Attributes].
  rewrite !Bool.eqb_reflx, !String.eqb_refl. cbn [negb orb].
  rewrite !sameParts_spec. cbn [Parts with_Attributes].
  rewrite !bool_decide_eq_true_2 by reflexivity.
  cbn [and_then]. auto.
Qed.

End Defaults.

(** *** The modelled tokenizer *)

Lemma stripAnyQuote_model_unquoted w : unquoted w → stripAnyQuote_model w = w.
Proof.
  destruct w as [|c r]; [contradiction|]. cbn [unquoted]. intros Hq.
  unfold stripAnyQuote_model. rewrite Hq. cbn [andb].
  destruct (get _ r); reflexivity.
Qed.

Lemma append_cons x (a b : string) : (String x a ++ b)%string = String x (a ++ b)%string.
Proof. reflexivity. Qed.

Lemma append_assoc (a b c : string) : ((a ++ b) ++ c = a ++ (b ++ c))%string.
Proof.
  induction a as [|x a IH]; [reflexivity|].
  rewrite !append_cons, IH. reflexivity.
Qed.

Lemma append_nil_r (a : string) : (a ++ "")%string = a.
Proof.
  induction a as [|x a IH]; [reflexivity|].
  rewrite append_cons, IH. reflexivity.
Qed.

Lemma append_nil_l (a : string) : (""%string ++ a)%string = a.
Proof. reflexivity. Qed.

Lemma tokenize_bareword w : ∀ cur rest,
  bareword w = true →
  tokenize_from None cur (w ++ rest) = tokenize_from None (cur ++ w) rest.
Proof.
  induction w as [|c w IH]; intros cur rest Hw.
  - rewrite append_nil_l, append_nil_r. reflexivity.
  - cbn [bareword] in Hw.
    apply andb_true_iff in Hw. destruct Hw as [Hw Hrest].
    apply andb_true_iff in Hw. destruct Hw as [Hw Hq].
    apply andb_true_iff in Hw. destruct Hw as [Hb He].
    apply negb_true_iff in Hb, He, Hq.
    rewrite append_cons. cbn [tokenize_from]. rewrite Hb, He, Hq.
    rewrite (IH _ _ Hrest), append_assoc. reflexivity.
Qed.

Lemma flush_nonempty cur toks : cur ≠ ""%string → flush cur toks = cur :: toks.
Proof. destruct cur; [congruence | reflexivity]. Qed.

Lemma tokenize_equals cur rest :
  cur ≠ ""%string →
  tokenize_from None cur ("=" ++ rest) = cur :: "="%string :: tokenize_from None "" rest.
Proof. intros H. rewrite append_cons, append_nil_l. cbn [tokenize_from].
  change (is_blank "=") with false. change (Ascii.eqb "=" "=") with true.
  cbn iota. apply flush_nonempty, H.
Qed.

Lemma tokenize_blank cur rest :
  cur ≠ ""%string →
  tokenize_from None cur (" " ++ rest) = cur :: tokenize_from None "" rest.
Proof. intros H. rewrite append_cons, append_nil_l. cbn [tokenize_from].
  change (is_blank " ") with true. cbn iota. apply flush_nonempty, H.
Qed.

Lemma TokenizeString_model_pairs k1 v1 k2 v2 :
  bareword k1 = true → bareword v1 = true → bareword k2 = true → bareword v2 = true →
  k1 ≠ ""%string → v1 ≠ ""%string → k2 ≠ ""%string → v2 ≠ ""%string →
  TokenizeString_model (k1 ++ "=" ++ v1 ++ " " ++ k2 ++ "=" ++ v2)
  = [k1; "="%string; v1; k2; "="%string; v2].
Proof.
  intros Bk1 Bv1 Bk2 Bv2 Nk1 Nv1 Nk2 Nv2. unfold TokenizeString_model.
  rewrite (tokenize_bareword k1), append_nil_l by assumption.
  rewrite tokenize_equals by assumption.
  rewrite (tokenize_bareword v1), append_nil_l by assumption.
  rewrite tokenize_blank by assumption.
  rewrite (tokenize_bareword k2), append_nil_l by assumption.
  rewrite tokenize_equals by assumption.
  rewrite <- (append_nil_r v2) at 1.
  rewrite (tokenize_bareword v2), append_nil_l by assumption.
  cbn [tokenize_from]. rewrite flush_nonempty by assumption.
  reflexivity.
Qed.

(** With the modelled helpers, every spelling of the two attributes that
    differs from [M=6 DISTANCE=euclidean] in letter case or order only is
    equivalent to no attributes at all. *)
Corollary vector_default_attributes_model (a : Index) (km kd vd attrs : string) :
  Type_ a = "VECTOR"%string → Attributes a = ""%string →
  ToUpper km = "M"%string → ToUpper kd = "DISTANCE"%string →
  ToLower vd = "euclidean"%string →
  attrs = (km ++ "=" ++ "6" ++ " " ++ kd ++ "=" ++ vd)%string
  ∨ attrs = (kd ++ "=" ++ vd ++ " " ++ km ++ "=" ++ "6")%string →
  @Equivalent model_lexing (Some a) (Some (with_Attributes a attrs)) = Some true
  ∧ @Equivalent model_lexing (Some (with_Attributes a attrs)) (Some a) = Some true.
Proof.
  intros Ht Ha Hkm Hkd Hvd Hattrs.
  assert (Lkm : letters km = true) by (eapply ToUpper_letters; eauto).
  assert (Lkd : letters kd = true) by (eapply ToUpper_letters; eauto).
  assert (Lvd : letters vd = true) by (eapply ToLower_letters; eauto).
  assert (Nkm : km ≠ ""%string) by (eapply ToUpper_nonempty; eauto; discriminate).
  assert (Nkd : kd ≠ ""%string) by (eapply ToUpper_nonempty; eauto; discriminate).
  assert (Nvd : vd ≠ ""%string) by (eapply ToLower_nonempty; eauto; discriminate).
  assert (Htok : TokenizeString_model attrs = [km; "="; "6"; kd; "="; vd]%string
               ∨ TokenizeString_model attrs = [kd; "="; vd; km; "="; "6"]%string).
  { destruct Hattrs as [-> | ->]; [left | right];
      apply TokenizeString_model_pairs;
      auto using letters_bareword; discriminate. }
  destruct (@sameAttributes_vector_defaults model_lexing
              stripAnyQuote_model_unquoted a attrs km kd vd
              Ht Ha Hkm Hkd Hvd Htok) as [H1 H2].
  unfold Equivalent. cbn [PrimaryKey Unique Type_ FullTextParser with_Attributes].
  rewrite !Bool.eqb_reflx, !String.eqb_refl. cbn [negb orb].
  rewrite !sameParts_spec. cbn [Parts with_Attributes].
  rewrite !bool_decide_eq_true_2 by reflexivity.
  cbn [and_then]. auto.
Qed.

(** The theorem at [m=6 Distance=EUCLIDEAN], with the modelled helpers. *)
Lemma vector_default_attributes_equivalent_witness :
  @Equivalent model_lexing (Some example_vector)
     (Some (with_Attributes example_vector "m=6 Distance=EUCLIDEAN")) = Some true
  ∧ @Equivalent model_lexing
     (Some (with_Attributes example_vector "m=6 Distance=EUCLIDEAN"))
     (Some example_vector) = Some true.
Proof.
  apply (@vector_default_attributes_equivalent model_lexing
           stripAnyQuote_model_unquoted example_vector
           "m=6 Distance=EUCLIDEAN" "m" "Distance" "EUCLIDEAN");
    try reflexivity.
  left. reflexivity.
Defined.

(** The theorem at [KEY(a)] and [KEY(a, b)]. *)
Lemma RedundantTo_left_prefix_witness :
  @RedundantTo model_lexing (Some key_ab) (Some key_a) = Some false
  ∧ @RedundantTo model_lexing (Some key_a) (Some key_ab) = Some true.
Proof.
  destruct (@RedundantTo_left_prefix model_lexing key_a key_ab part_a part_a part_b
              eq_refl eq_refl eq_refl eq_refl eq_refl eq_refl eq_refl eq_refl
              eq_refl eq_refl eq_refl eq_refl eq_refl) as (H1 & H2 & _).
  split; [exact H1|].
  apply H2; [discriminate | discriminate | intros H; exact H].
Defined.

(** C6 as stated fails: a FULLTEXT [KEY(a)] is not redundant to a FULLTEXT
    [KEY(a, b)], and a visible [KEY(a)] is not redundant to an invisible
    [KEY(a, b)], although both pairs meet every condition of the claim. *)
Lemma RedundantTo_left_prefix_counterexample :
  (PrimaryKey fulltext_a = false ∧ PrimaryKey fulltext_ab = false
   ∧ Unique fulltext_a = false ∧ Unique fulltext_ab = false
   ∧ Type_ fulltext_a = Type_ fulltext_ab
   ∧ FullTextParser fulltext_a = FullTextParser fulltext_ab
   ∧ Parts fulltext_a = [part_a] ∧ Parts fulltext_ab = [part_a; part_b]
   ∧ PrefixLength part_a = 0%Z
   ∧ @RedundantTo model_lexing (Some fulltext_a) (Some fulltext_ab) = Some false)
  ∧ (PrimaryKey key_a = false ∧ PrimaryKey key_ab_invisible = false
     ∧ Unique key_a = false ∧ Unique key_ab_invisible = false
     ∧ Type_ key_a = Type_ key_ab_invisible
     ∧ FullTextParser key_a = FullTextParser key_ab_invisible
     ∧ Parts key_a = [part_a] ∧ Parts key_ab_invisible = [part_a; part_b]
     ∧ @RedundantTo model_lexing (Some key_a) (Some key_ab_invisible) = Some false).
Proof. repeat split. Qed.

End TengoProofs.

(** * longestIncreasingSubsequence returns a longest increasing subsequence *)

Module LisProofs.
Import Tengo.
Local Close Scope string_scope.
Local Open Scope Z_scope.

(** ** The embedding on small inputs *)

Example lis_example :
  longestIncreasingSubsequence [3; 1; 4; 1; 5; 9; 2; 6] = Some [1; 4; 5; 6].
Proof. reflexivity. Qed.

Example lis_short : longestIncreasingSubsequence [7] = Some [7].
Proof. reflexivity. Qed.

(** ** Lists *)

Lemma snoc_of_length {A} (l : list A) k :
  length l = S k → ∃ l0 t, l = l0 ++ [t] ∧ length l0 = k.
Proof.
  intros Hlen. destruct (last l) as [t|] eqn:Hlast.
  - apply last_Some in Hlast. destruct Hlast as [l0 ->].
    exists l0, t. split; [reflexivity|].
    rewrite length_app in Hlen. simpl in Hlen. lia.
  - apply last_None in Hlast. subst l. discriminate.
Qed.

Lemma lookup_snoc_last {A} (l0 : list A) t :
  (l0 ++ [t]) !! (length (l0 ++ [t]) - 1)%nat = Some t.
Proof.
  rewrite length_app. simpl.
  replace (length l0 + 1 - 1)%nat with (length l0) by lia.
  apply list_lookup_middle. reflexivity.
Qed.

Lemma store_copy (this next : list Z) (x : Z) :
  length next = S (length this) →
  store (go_copy next this) (length next - 1) x = Some (this ++ [x]).
Proof.
  intros Hlen. unfold store, go_copy.
  rewrite take_ge by lia.
  destruct (snoc_of_length next _ Hlen) as (n0 & e & -> & Hn0).
  rewrite <- Hn0, drop_app_length.
  replace (length (n0 ++ [e]) - 1)%nat with (length this)
    by (rewrite length_app; simpl; lia).
  rewrite list_lookup_middle by reflexivity. cbn.
  f_equal. rewrite insert_app_r_alt by lia.
  rewrite Nat.sub_diag. reflexivity.
Qed.

Lemma sublist_snoc_inv (s p : list Z) x :
  sublist s (p ++ [x]) → sublist s p ∨ ∃ s', s = s' ++ [x] ∧ sublist s' p.
Proof.
  intros H. apply sublist_app_r in H. destruct H as (s1 & s2 & -> & H1 & H2).
  apply sublist_cons_r in H2. destruct H2 as [H2 | (s3 & -> & H3)].
  - apply sublist_nil_r in H2. subst s2. left. rewrite app_nil_r. exact H1.
  - apply sublist_nil_r in H3. subst s3. right. eauto.
Qed.

(** ** Increasing lists *)

Lemma increasing_below_last (l : list Z) t y :
  increasing (l ++ [t]) → y ∈ l ++ [t] → y ≤ t.
Proof.
  intros Hinc Hy. apply elem_of_app in Hy. destruct Hy as [Hy|Hy].
  - apply Z.lt_le_incl.
    apply (StronglySorted_app_1_elem_of Z.lt l [t] y t Hinc Hy).
    apply list_elem_of_singleton. reflexivity.
  - apply list_elem_of_singleton in Hy. lia.
Qed.

Lemma increasing_snoc (l : list Z) t x :
  increasing (l ++ [t]) → t < x → increasing ((l ++ [t]) ++ [x]).
Proof.
  intros Hinc Hlt. apply StronglySorted_app_2.
  - intros y z Hy Hz. apply list_elem_of_singleton in Hz. subst z.
    pose proof (increasing_below_last l t y Hinc Hy). lia.
  - exact Hinc.
  - repeat constructor.
Qed.

Lemma increasing_singleton x : increasing [x].
Proof. repeat constructor. Qed.

Lemma increasing_snoc_inv (s : list Z) u x :
  increasing ((s ++ [u]) ++ [x]) → increasing (s ++ [u]) ∧ u < x.
Proof.
  intros H. split.
  - apply (StronglySorted_app_1_l _ _ _ H).
  - apply (StronglySorted_app_1_elem_of Z.lt _ _ u x H).
    + apply elem_of_app. right. apply list_elem_of_singleton. reflexivity.
    + apply list_elem_of_singleton. reflexivity.
Qed.

(** ** The invariant of the outer loop *)

Lemma inv_lookup p c k :
  lis_inv p c → (k < length c)%nat →
  ∃ l t, c !! k = Some (l ++ [t]) ∧ length l = k
         ∧ increasing (l ++ [t]) ∧ sublist (l ++ [t]) p.
Proof.
  intros Hinv Hk.
  destruct (lookup_lt_is_Some_2 c k Hk) as [l Hl].
  destruct (inv_cand _ _ Hinv k l Hl) as (Hlen & Hinc & Hsub).
  destruct (snoc_of_length l k Hlen) as (l0 & t & -> & Hl0).
  eauto 10.
Qed.

Lemma tails_lt p c i j li ti lj tj :
  lis_inv p c → (i < j)%nat →
  c !! i = Some (li ++ [ti]) → c !! j = Some (lj ++ [tj]) → ti < tj.
Proof.
  intros Hinv Hij Hi Hj.
  destruct (inv_cand _ _ Hinv j _ Hj) as (Hlen & Hinc & Hsub).
  rewrite length_app in Hlen. simpl in Hlen.
  destruct (lookup_lt_is_Some_2 lj i) as [u Hu]; [lia|].
  assert (Hsplit : lj = (take i lj ++ [u]) ++ drop (S i) lj).
  { rewrite <- (take_S_r _ _ _ Hu). symmetry. apply take_drop. }
  assert (Hinc' : increasing ((take i lj ++ [u]) ++ (drop (S i) lj ++ [tj]))).
  { rewrite app_assoc, <- Hsplit. exact Hinc. }
  destruct (inv_min _ _ Hinv (take i lj) u) as (l & t & Hl & Hle).
  - apply (StronglySorted_app_1_l _ _ _ Hinc').
  - transitivity (lj ++ [tj]); [|exact Hsub].
    rewrite Hsplit at 2. rewrite <- app_assoc. apply sublist_inserts_r. reflexivity.
  - rewrite length_take, Nat.min_l in Hl by lia.
    rewrite Hi in Hl. injection Hl as Hl. apply app_inj_tail in Hl.
    destruct Hl as [_ ->].
    assert (u < tj); [|lia].
    apply (StronglySorted_app_1_elem_of Z.lt _ _ u tj Hinc').
    + apply elem_of_app. right. apply list_elem_of_singleton. reflexivity.
    + apply elem_of_app. right. apply list_elem_of_singleton. reflexivity.
Qed.

Lemma tails_le p c i j li ti lj tj :
  lis_inv p c → (i ≤ j)%nat →
  c !! i = Some (li ++ [ti]) → c !! j = Some (lj ++ [tj]) → ti ≤ tj.
Proof.
  intros Hinv Hij Hi Hj. destruct (decide (i = j)) as [->|Hne].
  - rewrite Hi in Hj. injection Hj as Hj. apply app_inj_tail in Hj. lia.
  - apply Z.lt_le_incl. eapply (tails_lt p c i j); eauto. lia.
Qed.

(** An increasing subsequence of [p ++ [x]] either lies in [p], or is
    [[x]], or is an increasing subsequence of [p] followed by [x]. *)
Lemma new_sequence_cases p c s u x :
  lis_inv p c → increasing (s ++ [u]) → sublist (s ++ [u]) (p ++ [x]) →
  (∃ l t, c !! length s = Some (l ++ [t]) ∧ t ≤ u)
  ∨ (u = x ∧ s = [])
  ∨ (u = x ∧ (1 ≤ length s)%nat
     ∧ ∃ l t, c !! (length s - 1)%nat = Some (l ++ [t]) ∧ t < x).
Proof.
  intros Hinv Hinc Hsub.
  destruct (sublist_snoc_inv _ _ _ Hsub) as [Hold | (s' & Heq & Hs')].
  - left. apply (inv_min _ _ Hinv s u Hinc Hold).
  - apply app_inj_tail in Heq. destruct Heq as [<- ->]. right.
    destruct (last s) as [u0|] eqn:Hlast.
    + right. apply last_Some in Hlast. destruct Hlast as [s0 ->].
      destruct (increasing_snoc_inv s0 u0 x Hinc) as [Hinc0 Hlt].
      destruct (inv_min _ _ Hinv s0 u0 Hinc0 Hs') as (l & t & Hl & Hle).
      rewrite length_app. simpl.
      replace (length s0 + 1 - 1)%nat with (length s0) by lia.
      split; [reflexivity|]. split; [lia|]. exists l, t. split; [exact Hl | lia].
    + left. apply last_None in Hlast. auto.
Qed.

Lemma cand_weaken p x (l : list Z) k :
  length l = S k ∧ increasing l ∧ sublist l p →
  length l = S k ∧ increasing l ∧ sublist l (p ++ [x]).
Proof. intros (? & ? & ?). auto using sublist_inserts_r. Qed.

(** [x] is below every last element: list 0 becomes [[x]]. *)
Lemma inv_replace_first p c x t0 :
  lis_inv p c → c !! 0%nat = Some [t0] → x < t0 →
  lis_inv (p ++ [x]) (<[0%nat := [x]]> c).
Proof.
  intros Hinv H0 Hlt. pose proof (inv_len _ _ Hinv) as Hlen. split.
  - rewrite length_insert. exact Hlen.
  - intros k l Hk. destruct (decide (k = 0%nat)) as [->|Hne].
    + rewrite list_lookup_insert_eq in Hk by exact Hlen. injection Hk as <-.
      split; [reflexivity|]. split; [apply increasing_singleton|].
      apply sublist_inserts_l. reflexivity.
    + rewrite list_lookup_insert_ne in Hk by congruence.
      apply cand_weaken, (inv_cand _ _ Hinv k l Hk).
  - intros s u Hinc Hsub.
    destruct (new_sequence_cases p c s u x Hinv Hinc Hsub)
      as [(l & t & Hl & Hle) | [(-> & ->) | (-> & Hs & l & t & Hl & Htx)]].
    + destruct (decide (length s = 0%nat)) as [Hz|Hnz].
      * rewrite Hz in *. rewrite H0 in Hl. injection Hl as Hl.
        apply (app_inj_tail [] l t0 t) in Hl. destruct Hl as [_ <-].
        exists [], x. rewrite list_lookup_insert_eq by exact Hlen.
        split; [reflexivity | lia].
      * exists l, t. rewrite list_lookup_insert_ne by congruence. auto.
    + exists [], x. cbn [length]. rewrite list_lookup_insert_eq by exact Hlen.
      split; [reflexivity | lia].
    + pose proof (tails_le p c 0 (length s - 1) [] t0 l t Hinv
                    ltac:(lia) H0 Hl). lia.
Qed.

(** [x] equals the last element of list 0 and is above no other: nothing
    changes. *)
Lemma inv_same p c x t0 :
  lis_inv p c → c !! 0%nat = Some [t0] → x = t0 → lis_inv (p ++ [x]) c.
Proof.
  intros Hinv H0 ->. split.
  - apply (inv_len _ _ Hinv).
  - intros k l Hk. apply cand_weaken, (inv_cand _ _ Hinv k l Hk).
  - intros s u Hinc Hsub.
    destruct (new_sequence_cases p c s u t0 Hinv Hinc Hsub)
      as [Hold | [(-> & ->) | (-> & Hs & l & t & Hl & Htx)]].
    + exact Hold.
    + exists [], t0. split; [exact H0 | lia].
    + pose proof (tails_le p c 0 (length s - 1) [] t0 l t Hinv
                    ltac:(lia) H0 Hl). lia.
Qed.

(** [x] is above the last element of the longest list: one more list. *)
Lemma inv_extend p c x lL tL :
  lis_inv p c → c !! (length c - 1)%nat = Some (lL ++ [tL]) → tL < x →
  lis_inv (p ++ [x]) (c ++ [(lL ++ [tL]) ++ [x]]).
Proof.
  intros Hinv HL Hlt. pose proof (inv_len _ _ Hinv) as Hlen.
  destruct (inv_cand _ _ Hinv _ _ HL) as (HlenL & HincL & HsubL).
  split.
  - rewrite length_app. simpl. lia.
  - intros k l Hk. destruct (decide (k < length c)%nat) as [Hlt'|Hge].
    + rewrite lookup_app_l in Hk by exact Hlt'.
      apply cand_weaken, (inv_cand _ _ Hinv k l Hk).
    + rewrite lookup_app_r in Hk by lia.
      destruct (k - length c)%nat as [|d] eqn:Hd; [|destruct d; discriminate].
      injection Hk as <-. split; [|split].
      * rewrite length_app, HlenL. simpl. lia.
      * apply increasing_snoc; assumption.
      * apply sublist_app; [exact HsubL | reflexivity].
  - intros s u Hinc Hsub.
    destruct (new_sequence_cases p c s u x Hinv Hinc Hsub)
      as [(l & t & Hl & Hle) | [(-> & ->) | (-> & Hs & l & t & Hl & Htx)]].
    + exists l, t. rewrite lookup_app_l by (eapply lookup_lt_Some; eauto). auto.
    + destruct (inv_lookup p c 0 Hinv Hlen) as (l & t & Hl & _).
      exists l, t. cbn [length]. rewrite lookup_app_l by exact Hlen.
      split; [exact Hl|].
      pose proof (tails_le p c 0 (length c - 1) l t lL tL Hinv ltac:(lia) Hl HL).
      lia.
    + pose proof (lookup_lt_Some _ _ _ Hl) as Hbound.
      destruct (decide (length s < length c)%nat) as [Hin|Hout].
      * destruct (inv_lookup p c (length s) Hinv Hin) as (l' & t' & Hl' & _).
        exists l', t'. rewrite lookup_app_l by exact Hin. split; [exact Hl'|].
        pose proof (tails_le p c (length s) (length c - 1) l' t' lL tL Hinv
                      ltac:(lia) Hl' HL). lia.
      * exists (lL ++ [tL]), x. rewrite lookup_app_r by lia.
        replace (length s - length c)%nat with 0%nat by lia.
        split; [reflexivity | lia].
Qed.

(** [x] is above the last element of list [j] and above no later one:
    list [j + 1] becomes list [j] followed by [x]. *)
Lemma inv_replace p c x j lj tj :
  lis_inv p c → c !! j = Some (lj ++ [tj]) → tj < x → (S j < length c)%nat →
  (∀ j' l' t', (j < j')%nat → c !! j' = Some (l' ++ [t']) → x ≤ t') →
  lis_inv (p ++ [x]) (<[S j := (lj ++ [tj]) ++ [x]]> c).
Proof.
  intros Hinv Hj Hlt HSj Habove. pose proof (inv_len _ _ Hinv) as Hlen.
  destruct (inv_cand _ _ Hinv _ _ Hj) as (Hlenj & Hincj & Hsubj).
  split.
  - rewrite length_insert. exact Hlen.
  - intros k l Hk. destruct (decide (k = S j)) as [->|Hne].
    + rewrite list_lookup_insert_eq in Hk by exact HSj. injection Hk as <-.
      split; [|split].
      * rewrite length_app, Hlenj. simpl. lia.
      * apply increasing_snoc; assumption.
      * apply sublist_app; [exact Hsubj | reflexivity].
    + rewrite list_lookup_insert_ne in Hk by congruence.
      apply cand_weaken, (inv_cand _ _ Hinv k l Hk).
  - intros s u Hinc Hsub.
    destruct (new_sequence_cases p c s u x Hinv Hinc Hsub)
      as [(l & t & Hl & Hle) | [(-> & ->) | (-> & Hs & l & t & Hl & Htx)]].
    + destruct (decide (length s = S j)) as [Hz|Hnz].
      * exists (lj ++ [tj]), x. rewrite Hz.
        rewrite list_lookup_insert_eq by exact HSj. split; [reflexivity|].
        rewrite Hz in Hl. pose proof (Habove (S j) l t ltac:(lia) Hl). lia.
      * exists l, t. rewrite list_lookup_insert_ne by congruence. auto.
    + destruct (inv_lookup p c 0 Hinv Hlen) as (l & t & Hl & _).
      exists l, t. cbn [length]. rewrite list_lookup_insert_ne by lia.
      split; [exact Hl|].
      pose proof (tails_le p c 0 j l t lj tj Hinv ltac:(lia) Hl Hj). lia.
    + assert (Hle : (length s - 1 ≤ j)%nat).
      { destruct (decide (length s - 1 ≤ j)%nat) as [?|Hgt]; [assumption|].
        pose proof (Habove (length s - 1)%nat l t ltac:(lia) Hl). lia. }
      destruct (decide (length s = S j)) as [Hz|Hnz].
      * exists (lj ++ [tj]), x. rewrite Hz.
        rewrite list_lookup_insert_eq by exact HSj. split; [reflexivity | lia].
      * destruct (inv_lookup p c (length s) Hinv ltac:(lia)) as (l' & t' & Hl' & _).
        exists l', t'. rewrite list_lookup_insert_ne by congruence.
        split; [exact Hl'|].
        pose proof (tails_le p c (length s) j l' t' lj tj Hinv ltac:(lia) Hl' Hj).
        lia.
Qed.

(** ** The code meets the invariant *)

Lemma gtb_true x t : (x >? t) = true ↔ t < x.
Proof. rewrite Z.gtb_ltb. apply Z.ltb_lt. Qed.

Lemma gtb_false x t : (x >? t) = false ↔ x ≤ t.
Proof. rewrite Z.gtb_ltb. apply Z.ltb_ge. Qed.

(** The inner loop started at [j = k - 1]: either no list below [k] ends
    under [x] and nothing changes, or the highest such list [j] is copied,
    with [x] appended, over list [j + 1]. *)
Lemma lis_inner_spec p c x k :
  lis_inv p c → (k < length c)%nat →
  (lis_inner c x k = Some c
   ∧ ∀ j lj tj, (j < k)%nat → c !! j = Some (lj ++ [tj]) → x ≤ tj)
  ∨ (∃ j lj tj, (j < k)%nat ∧ c !! j = Some (lj ++ [tj]) ∧ tj < x
       ∧ (∀ j' l' t', (j < j' < k)%nat → c !! j' = Some (l' ++ [t']) → x ≤ t')
       ∧ lis_inner c x k = Some (<[S j := (lj ++ [tj]) ++ [x]]> c)).
Proof.
  intros Hinv. induction k as [|j IH]; intros Hk.
  - left. split; [reflexivity|]. intros; lia.
  - destruct (inv_lookup p c j Hinv ltac:(lia)) as (lj & tj & Hj & Hlj & _).
    destruct (inv_lookup p c (S j) Hinv Hk) as (ln & tn & Hn & Hln & _).
    cbn [lis_inner]. replace (j + 1)%nat with (S j) by lia.
    rewrite Hj, Hn. cbn [mbind option_bind].
    rewrite lookup_snoc_last. cbn [mbind option_bind].
    destruct (x >? tj) eqn:Hcmp.
    + apply gtb_true in Hcmp. right. exists j, lj, tj.
      rewrite store_copy by (rewrite !length_app; simpl; lia).
      cbn [mbind option_bind].
      split; [lia|]. split; [exact Hj|]. split; [exact Hcmp|].
      split; [intros; lia | reflexivity].
    + apply gtb_false in Hcmp.
      destruct (IH ltac:(lia)) as [[Hsame Hall] | (j0 & l0 & t0 & Hj0 & Hl0 & Hlt0 & Hall & Hres)].
      * left. split; [exact Hsame|]. intros j1 l1 t1 Hj1 Hl1.
        destruct (decide (j1 = j)) as [->|Hne].
        -- rewrite Hj in Hl1. injection Hl1 as Hl1.
           apply app_inj_tail in Hl1. destruct Hl1 as [_ <-]. exact Hcmp.
        -- apply (Hall j1 l1 t1); [lia | exact Hl1].
      * right. exists j0, l0, t0. split; [lia|]. split; [exact Hl0|].
        split; [exact Hlt0|]. split; [|exact Hres].
        intros j1 l1 t1 Hj1 Hl1. destruct (decide (j1 = j)) as [->|Hne].
        -- rewrite Hj in Hl1. injection Hl1 as Hl1.
           apply app_inj_tail in Hl1. destruct Hl1 as [_ <-]. exact Hcmp.
        -- apply (Hall j1 l1 t1); [lia | exact Hl1].
Qed.

(** One iteration of the outer loop keeps the invariant and does not
    panic. *)
Lemma lis_step_spec p c x :
  lis_inv p c → ∃ c', lis_step c x = Some c' ∧ lis_inv (p ++ [x]) c'.
Proof.
  intros Hinv. pose proof (inv_len _ _ Hinv) as Hlen.
  destruct (inv_lookup p c 0 Hinv Hlen) as (l0 & t0 & H0 & Hl0 & _).
  apply nil_length_inv in Hl0. subst l0. cbn [app] in H0.
  destruct (inv_lookup p c (length c - 1) Hinv ltac:(lia))
    as (lL & tL & HL & HlL & _).
  unfold lis_step. rewrite H0. cbn [mbind option_bind lookup list_lookup].
  destruct (x <? t0) eqn:Hfirst.
  - apply Z.ltb_lt in Hfirst. eexists. split; [reflexivity|].
    apply (inv_replace_first p c x t0 Hinv H0 Hfirst).
  - apply Z.ltb_ge in Hfirst.
    rewrite HL. cbn [mbind option_bind]. rewrite lookup_snoc_last.
    cbn [mbind option_bind].
    destruct (x >? tL) eqn:Hlast.
    + apply gtb_true in Hlast.
      pose proof (store_copy (lL ++ [tL])
                    (replicate (length (lL ++ [tL]) + 1) 0) x) as Hstore.
      rewrite length_replicate in Hstore.
      replace (length (lL ++ [tL]) + 1 - 1)%nat with (length (lL ++ [tL]))
        in Hstore by lia.
      rewrite Hstore by lia. cbn [mbind option_bind].
      eexists. split; [reflexivity|].
      apply (inv_extend p c x lL tL Hinv HL Hlast).
    + apply gtb_false in Hlast.
      destruct (lis_inner_spec p c x (length c - 1) Hinv ltac:(lia))
        as [[Hsame Hall] | (j & lj & tj & Hj & Hlj & Hlt & Hall & Hres)].
      * exists c. split; [exact Hsame|].
        apply (inv_same p c x t0 Hinv H0).
        destruct (decide (length c = 1%nat)) as [H1|Hmore].
        -- rewrite H1 in HL. cbn in HL. rewrite H0 in HL. injection HL as HL.
           apply (app_inj_tail [] lL t0 tL) in HL. destruct HL as [_ <-]. lia.
        -- pose proof (Hall 0%nat [] t0 ltac:(lia) H0). lia.
      * eexists. split; [exact Hres|].
        apply (inv_replace p c x j lj tj Hinv Hlj Hlt ltac:(lia)).
        intros j' l' t' Hj' Hl'.
        pose proof (lookup_lt_Some _ _ _ Hl') as Hb.
        destruct (decide (j' = length c - 1)%nat) as [->|Hne].
        -- rewrite HL in Hl'. injection Hl' as Hl'.
           apply app_inj_tail in Hl'. destruct Hl' as [_ <-]. exact Hlast.
        -- apply (Hall j' l' t'); [lia | exact Hl'].
Qed.

Lemma lis_loop_spec rest : ∀ p c,
  lis_inv p c → ∃ c', lis_loop c rest = Some c' ∧ lis_inv (p ++ rest) c'.
Proof.
  induction rest as [|x rest IH]; intros p c Hinv.
  - exists c. rewrite app_nil_r. auto.
  - destruct (lis_step_spec p c x Hinv) as (c1 & Hstep & Hinv1).
    destruct (IH (p ++ [x]) c1 Hinv1) as (c' & Hloop & Hinv').
    exists c'. cbn [lis_loop]. rewrite Hstep. cbn [mbind option_bind].
    rewrite <- app_assoc in Hinv'. auto.
Qed.

Lemma lis_inv_init x0 : lis_inv [x0] [[x0]].
Proof.
  split.
  - simpl. lia.
  - intros [|k] l Hk; [|destruct k; discriminate]. injection Hk as <-.
    split; [reflexivity|]. split; [apply increasing_singleton | reflexivity].
  - intros s u _ Hsub.
    pose proof (sublist_length _ _ Hsub) as Hlen.
    rewrite length_app in Hlen. simpl in Hlen.
    destruct s as [|? s]; [|simpl in Hlen; lia].
    exists [], x0. split; [reflexivity|].
    cbn [app] in Hsub.
    apply sublist_cons_r in Hsub. destruct Hsub as [H1 | (l' & Heq & _)].
    + apply sublist_nil_r in H1. discriminate.
    + injection Heq as -> _. lia.
Qed.

(** ** The result *)

Lemma nondecreasing_NoDup_increasing (s : list Z) :
  nondecreasing s → NoDup s → increasing s.
Proof.
  unfold nondecreasing, increasing.
  induction s as [|x s IH]; intros Hle Hnd; [constructor|].
  apply StronglySorted_cons in Hle. destruct Hle as [Hall Hle].
  apply NoDup_cons in Hnd. destruct Hnd as [Hx Hnd].
  apply StronglySorted_cons. split; [|auto].
  rewrite Forall_forall in *. intros y Hy.
  specialize (Hall y Hy). assert (x ≠ y) by (intros ->; contradiction). lia.
Qed.

Lemma lis_core (input : list Z) :
  ∃ r, longestIncreasingSubsequence input = Some r
       ∧ sublist r input ∧ increasing r
       ∧ (∀ s, sublist s input → increasing s → (length s ≤ length r)%nat)
       ∧ ((length input < 2)%nat → r = input).
Proof.
  unfold longestIncreasingSubsequence.
  destruct (length input <? 2)%nat eqn:Hshort.
  - apply Nat.ltb_lt in Hshort. exists input.
    split; [reflexivity|]. split; [reflexivity|]. split; [|split].
    + destruct input as [|x [|y rest]]; [constructor | apply increasing_singleton|].
      simpl in Hshort. lia.
    + intros s Hs _. apply sublist_length, Hs.
    + reflexivity.
  - apply Nat.ltb_ge in Hshort.
    destruct input as [|x0 rest]; [simpl in Hshort; lia|].
    destruct (lis_loop_spec rest [x0] [[x0]] (lis_inv_init x0))
      as (c & Hloop & Hinv).
    cbn [app] in Hinv. rewrite Hloop. cbn [mbind option_bind].
    pose proof (inv_len _ _ Hinv) as Hlen.
    destruct (inv_lookup _ c (length c - 1) Hinv ltac:(lia))
      as (l & t & Hl & Hll & Hinc & Hsub).
    exists (l ++ [t]). split; [exact Hl|]. split; [exact Hsub|].
    split; [exact Hinc|]. split.
    + intros s Hs Hsinc. destruct (last s) as [u|] eqn:Hlast.
      * apply last_Some in Hlast. destruct Hlast as [s0 ->].
        destruct (inv_min _ _ Hinv s0 u Hsinc Hs) as (l' & t' & Hl' & _).
        apply lookup_lt_Some in Hl'. rewrite !length_app. simpl. lia.
      * apply last_None in Hlast. subst s. simpl. lia.
    + intros Hlt. simpl in Hshort, Hlt. lia.
Qed.

(** C9, as amended.  [longestIncreasingSubsequence] never panics; what it
    returns is a subsequence of the input, strictly increasing, and no
    strictly increasing subsequence of the input is longer; when no value
    occurs twice in the input, no non-decreasing subsequence is longer
    either; an input of fewer than two elements is returned as it is. *)
Theorem longestIncreasingSubsequence_longest_increasing (input : list Z) :
  ∃ r, longestIncreasingSubsequence input = Some r
       ∧ sublist r input ∧ increasing r
       ∧ (∀ s, sublist s input → increasing s → (length s ≤ length r)%nat)
       ∧ (NoDup input →
          ∀ s, sublist s input → nondecreasing s → (length s ≤ length r)%nat)
       ∧ ((length input < 2)%nat → r = input).
Proof.
  destruct (lis_core input) as (r & Hr & Hsub & Hinc & Hmax & Hshort).
  exists r. repeat (split; [assumption|]). split; [|assumption].
  intros Hnd s Hs Hle. apply (Hmax s Hs).
  apply nondecreasing_NoDup_increasing; [exact Hle|].
  apply (sublist_NoDup s input Hnd Hs).
Qed.

(** The theorem at [3; 1; 2]: the result is at least as long as [1; 2]. *)
Lemma longestIncreasingSubsequence_longest_increasing_witness :
  ∃ r, longestIncreasingSubsequence [3; 1; 2] = Some r ∧ (2 ≤ length r)%nat.
Proof.
  destruct (longestIncreasingSubsequence_longest_increasing [3; 1; 2])
    as (r & Hr & _ & _ & Hmax & _ & _).
  exists r. split; [exact Hr|].
  apply (Hmax [1; 2]).
  - apply sublist_cons, sublist_skip, sublist_skip, sublist_nil.
  - repeat constructor.
Defined.

(** C9 as stated fails at [1; 1]: the result is [[1]], and the input
    itself is a longer non-decreasing subsequence. *)
Lemma longestIncreasingSubsequence_nondecreasing_counterexample :
  longestIncreasingSubsequence [1; 1] = Some [1]
  ∧ sublist [1; 1] [1; 1] ∧ nondecreasing [1; 1]
  ∧ (length [1] < length [1; 1])%nat.
Proof.
  split; [reflexivity|]. split; [reflexivity|]. split.
  - repeat constructor; lia.
  - simpl. lia.
Qed.

End LisProofs.

(** * More on the statement splitter *)

Module FsMore.
Import GoStd Fs FsProofs.
Local Close Scope string_scope.

(** ** Runes below 128 are bytes *)

Lemma lor_ge_128_l a b : (128 ≤ a)%N → (128 ≤ N.lor a b)%N.
Proof.
  intros Ha.
  assert (Hlog : (7 ≤ N.log2 a)%N) by (apply (N.log2_le_pow2 a 7); lia).
  assert (Hmax : (7 ≤ N.log2 (N.lor a b))%N) by (rewrite N.log2_lor; lia).
  destruct (N.eq_dec (N.lor a b) 0%N) as [H0|H0].
  - rewrite H0 in Hmax. cbn in Hmax. lia.
  - apply (N.log2_le_pow2 (N.lor a b) 7); lia.
Qed.

Lemma lor_ge_128_r a b : (128 ≤ b)%N → (128 ≤ N.lor a b)%N.
Proof. rewrite N.lor_comm. apply lor_ge_128_l. Qed.

Ltac byte_facts c :=
  destruct c as [[] [] [] [] [] [] [] []]; vm_compute;
  intros; try discriminate; try congruence.

Lemma lead2_high c0 :
  ((194 <=? byteN c0) && (byteN c0 <=? 223))%N = true →
  (128 ≤ N.shiftl (N.land (byteN c0) 31) 6)%N.
Proof. byte_facts c0. Qed.

Lemma lead3_high c0 c1 :
  ((224 <=? byteN c0) && (byteN c0 <=? 239))%N = true →
  (((if (byteN c0 =? 224)%N then 160 else 128) <=? byteN c1)
   && (byteN c1 <=? (if (byteN c0 =? 237)%N then 159 else 191)))%N = true →
  (128 ≤ N.lor (N.shiftl (N.land (byteN c0) 15) 12)
               (N.shiftl (N.land (byteN c1) 63) 6))%N.
Proof.
  intros H0 H1. destruct (byteN c0 =? 224)%N eqn:E.
  - apply lor_ge_128_r. clear H0 E. revert H1.
    destruct (byteN c0 =? 237)%N; byte_facts c1.
  - apply lor_ge_128_l. clear H1. revert E H0. byte_facts c0.
Qed.

Lemma lead4_high c0 c1 :
  ((240 <=? byteN c0) && (byteN c0 <=? 244))%N = true →
  (((if (byteN c0 =? 240)%N then 144 else 128) <=? byteN c1)
   && (byteN c1 <=? (if (byteN c0 =? 244)%N then 143 else 191)))%N = true →
  (128 ≤ N.lor (N.shiftl (N.land (byteN c0) 7) 18)
               (N.shiftl (N.land (byteN c1) 63) 12))%N.
Proof.
  intros H0 H1. destruct (byteN c0 =? 240)%N eqn:E.
  - apply lor_ge_128_r. clear H0 E. revert H1.
    destruct (byteN c0 =? 244)%N; byte_facts c1.
  - apply lor_ge_128_l. clear H1. revert E H0. byte_facts c0.
Qed.

(** A rune below 128 is decoded from one byte, which it equals. *)
Lemma DecodeRuneInString_ascii s r size :
  DecodeRuneInString s = (r, size) → (r < 128)%N →
  ∃ c rest, s = String c rest ∧ byteN c = r.
Proof.
  unfold DecodeRuneInString, RuneError.
  destruct s as [|c0 r0]; [intros [= <- <-]; lia|].
  destruct (byteN c0 <? 128)%N eqn:E0; [intros [= <- <-] _; eauto|].
  destruct ((194 <=? byteN c0) && (byteN c0 <=? 223))%N eqn:E2.
  { destruct r0 as [|c1 r1]; [intros [= <- <-]; lia|].
    destruct (is_cont (byteN c1)); intros [= <- <-] Hr; [|lia].
    pose proof (lor_ge_128_l _ (N.land (byteN c1) 63) (lead2_high c0 E2)). lia. }
  destruct ((224 <=? byteN c0) && (byteN c0 <=? 239))%N eqn:E3.
  { destruct r0 as [|c1 [|c2 r2]]; try (intros [= <- <-]; lia).
    destruct (_ && _ && is_cont (byteN c2)) eqn:Ev; intros [= <- <-] Hr; [|lia].
    apply andb_true_iff in Ev. destruct Ev as [Ev _].
    pose proof (lor_ge_128_l _ (N.land (byteN c2) 63) (lead3_high c0 c1 E3 Ev)).
    lia. }
  destruct ((240 <=? byteN c0) && (byteN c0 <=? 244))%N eqn:E4.
  { destruct r0 as [|c1 [|c2 [|c3 r3]]]; try (intros [= <- <-]; lia).
    destruct (_ && _ && is_cont (byteN c2) && is_cont (byteN c3)) eqn:Ev;
      intros [= <- <-] Hr; [|lia].
    apply andb_true_iff in Ev. destruct Ev as [Ev _].
    apply andb_true_iff in Ev. destruct Ev as [Ev _].
    pose proof (lor_ge_128_l _ (N.land (byteN c3) 63)
                  (lor_ge_128_l _ (N.shiftl (N.land (byteN c2) 63) 6)
                     (lead4_high c0 c1 E4 Ev))).
    lia. }
  intros [= <- <-]. lia.
Qed.

Lemma string_app_cons x (a b : string) :
  String.append (String x a) b = String x (String.append a b).
Proof. reflexivity. Qed.

Lemma string_app_assoc (a b c : string) :
  String.append (String.append a b) c = String.append a (String.append b c).
Proof.
  induction a as [|x a IH]; [reflexivity|].
  rewrite !string_app_cons, IH. reflexivity.
Qed.

Lemma string_app_length (a b : string) :
  String.length (String.append a b) = String.length a + String.length b.
Proof.
  induction a as [|x a IH]; [reflexivity|].
  rewrite string_app_cons. cbn [String.length]. rewrite IH. reflexivity.
Qed.

Lemma get_app_length (a : string) c b :
  get (String.length a) (String.append a (String c b)) = Some c.
Proof.
  induction a as [|x a IH]; [reflexivity|].
  rewrite string_app_cons. cbn [String.length get]. exact IH.
Qed.

Lemma range_ok_weaken contents b b' rs :
  b ≤ b' → range_ok contents b' rs → range_ok contents b rs.
Proof.
  destruct rs as [|[n c] rs]; cbn [range_ok]; intros; [lia|].
  intuition lia.
Qed.

Lemma range_from_ok s : ∀ pre skip,
  skip ≤ String.length s →
  range_ok (String.append pre s) (String.length pre + skip)
           (range_from (String.length pre) skip s).
Proof.
  induction s as [|c rest IH]; intros pre skip Hskip.
  - cbn in *. rewrite string_app_length. cbn. lia.
  - assert (Hpre : String.append pre (String c rest)
                   = String.append (String.append pre (String c "")) rest)
      by (rewrite string_app_assoc; reflexivity).
    assert (Hlen : String.length (String.append pre (String c ""))
                   = S (String.length pre))
      by (rewrite string_app_length; cbn; lia).
    destruct skip as [|k].
    + cbn [range_from].
      pose proof (DecodeRuneInString_size (String c rest)) as Hsz.
      destruct (DecodeRuneInString (String c rest)) as [r size] eqn:Hdec.
      cbn [snd String.length] in Hsz. cbn [range_ok].
      split; [lia|]. split; [rewrite string_app_length; cbn; lia|].
      split.
      * intros Hr.
        destruct (DecodeRuneInString_ascii _ _ _ Hdec Hr) as (c' & rest' & Heq & Hb).
        injection Heq as <- <-. rewrite get_app_length. f_equal.
        rewrite <- Hb. unfold byteN. symmetry. apply ascii_N_embedding.
      * apply range_ok_weaken with (b' := S (String.length pre) + (size - 1)); [lia|].
        rewrite Hpre, <- Hlen. apply IH. lia.
    + cbn [range_from String.length] in *.
      replace (String.length pre + S k) with (S (String.length pre) + k) by lia.
      rewrite Hpre, <- Hlen. apply IH. lia.
Qed.

Lemma range_is_ok contents : range_ok contents 0 (range contents).
Proof. apply (range_from_ok contents "" 0). lia. Qed.

(** A property kept by every step is kept by the loop. *)
Lemma run_keeps (P : scan → nat → Prop) sf contents :
  (∀ st b n c, P st b → b ≤ n → n < String.length contents →
     ((c < 128)%N → get n contents = Some (ascii_of_N c)) →
     P (step sf contents (Z.of_nat (String.length contents) - 1) st (n, c)) (S n)) →
  ∀ rs st b, P st b → range_ok contents b rs →
  ∃ b', b' ≤ String.length contents ∧ P (run sf contents rs st) b'.
Proof.
  intros Hstep. induction rs as [|[n c] rs IH]; intros st b HP Hok.
  - exists b. cbn [range_ok] in Hok. auto.
  - cbn [range_ok] in Hok. destruct Hok as (Hb & Hn & Hbyte & Hok).
    unfold run. cbn [fold_left]. apply (IH _ (S n)); [|exact Hok].
    apply (Hstep st b n c); assumption.
Qed.

(** ** What one step does to the collected statements *)

Lemma step_shape sf contents last st n c :
  (result (step sf contents last st (n, c)) = result st
   ∧ startStatement (step sf contents last st (n, c)) = startStatement st)
  ∨ (c = 10%N ∧ result st ≠ [] ∧ startStatement st = n
     ∧ result (step sf contents last st (n, c)) = append_to_last (result st) LF
     ∧ startStatement (step sf contents last st (n, c)) = S n)
  ∨ (startStatement st < n
     ∧ result (step sf contents last st (n, c))
       = result st ++ [with_Text (stmt st) (slice contents (startStatement st) n)]
     ∧ startStatement (step sf contents last st (n, c)) = startStatement st)
  ∨ (∃ s0, result (step sf contents last st (n, c))
           = result st ++ [with_Text s0 (slice contents (startStatement st) (n + 1))]
     ∧ startStatement (step sf contents last st (n, c)) = S n)
  ∨ (∃ s0, startStatement st < n
     ∧ result (step sf contents last st (n, c))
       = (result st ++ [with_Text (stmt st) (slice contents (startStatement st) n)])
         ++ [with_Text s0 (slice contents (startStatement st) (n + 1))]
     ∧ startStatement (step sf contents last st (n, c)) = S n).
Proof.
  unfold step, dispatch.
  repeat (case_match; cbn -[N.eqb N.ltb Nat.eqb Nat.ltb Z.ltb Z.leb slice] in * );
    bool_facts; subst;
    first
      [ left; split; reflexivity
      | right; left;
        match goal with H : (0 <=? _)%Z = true |- _ => apply Z.leb_le in H end;
        split; [reflexivity|]; split;
        [ intros Hnil; rewrite Hnil in *; cbn in *; lia
        | split; [reflexivity|]; split; [reflexivity | lia] ]
      | right; right; left; split; [lia|]; split; reflexivity
      | right; right; right; left; eexists; split; [reflexivity | lia]
      | right; right; right; right; eexists; split; [lia|];
        split; [reflexivity | lia] ].
Qed.

(** ** Strings and statement lists *)






Lemma append_to_last_nonempty l t :
  texts_nonempty l → texts_nonempty (append_to_last l t).
Proof.
  unfold texts_nonempty. induction l as [|y l IH]; intros H; [constructor|].
  apply Forall_cons in H. destruct H as [Hy Hl].
  cbn [append_to_last]. destruct l as [|z l].
  - constructor; [|constructor]. cbn [Text with_Text].
    destruct (Text y); [congruence | discriminate].
  - constructor; [exact Hy | apply IH, Hl].
Qed.

Lemma slice_nonempty contents a b :
  a < b → b ≤ String.length contents → slice contents a b ≠ ""%string.
Proof.
  intros Hab Hb Hempty.
  assert (Hlen : String.length (slice contents a b) = b - a)
    by (unfold slice; apply substring_length; lia).
  rewrite Hempty in Hlen. cbn in Hlen. lia.
Qed.

(** ** No statement is empty *)

Lemma step_texts_nonempty sf contents last st b n c :
  startStatement st ≤ b ∧ texts_nonempty (result st) →
  b ≤ n → n < String.length contents →
  startStatement (step sf contents last st (n, c)) ≤ S n
  ∧ texts_nonempty (result (step sf contents last st (n, c))).
Proof.
  intros [Hss Hne] Hb Hn. unfold texts_nonempty in *.
  destruct (step_shape sf contents last st n c)
    as [(-> & ->) | [(_ & _ & _ & -> & ->) | [(Hlt & -> & ->)
       | [(s0 & -> & ->) | (s0 & Hlt & -> & ->)]]]].
  - split; [lia | exact Hne].
  - split; [lia | apply append_to_last_nonempty, Hne].
  - split; [lia|]. apply Forall_app. split; [exact Hne|].
    constructor; [|constructor]. apply slice_nonempty; lia.
  - split; [lia|]. apply Forall_app. split; [exact Hne|].
    constructor; [|constructor]. apply slice_nonempty; lia.
  - split; [lia|]. apply Forall_app. split; [apply Forall_app; split|].
    + exact Hne.
    + constructor; [|constructor]. apply slice_nonempty; lia.
    + constructor; [|constructor]. apply slice_nonempty; lia.
Qed.

(** X1.  Every statement [Parse] returns has a text of at least one byte. *)
Theorem Parse_texts_nonempty sf contents :
  Forall (λ s, Text s ≠ ""%string) (fst (Parse sf (inr contents))).
Proof.
  destruct (run_keeps (λ st b, startStatement st ≤ b ∧ texts_nonempty (result st))
              sf contents) with (rs := range contents) (st := scan_init sf) (b := 0)
    as (b & Hb & Hss & Hne).
  - intros st b n c H Hbn Hn _. apply (step_texts_nonempty _ _ _ st b); assumption.
  - split; [cbn; lia | constructor].
  - apply range_is_ok.
  - fold (final_scan sf contents) in Hss, Hne.
    unfold Parse, finish. cbn [fst Text with_Text].
    destruct (0 <? String.length _)%nat eqn:E; [|exact Hne].
    apply Forall_app. split; [exact Hne|]. constructor; [|constructor].
    cbn [Text with_Text]. intros Hempty. rewrite Hempty in E. discriminate.
Qed.

(** ** The statements closed by a semicolon, with the line feeds added to
    them and the dangling text, hold the input *)




(** ** An unterminated block comment *)

Lemma step_comment_inv sf contents last st b n c :
  comment_inv st b ∧ (inCComment st = true → inQuote st = 0%N) →
  b ≤ n →
  comment_inv (step sf contents last st (n, c)) (S n)
  ∧ (inCComment (step sf contents last st (n, c)) = true
     → inQuote (step sf contents last st (n, c)) = 0%N).
Proof.
  intros [[Hle Hc] Hq] Hb. unfold comment_inv in *.
  unfold step, dispatch.
  repeat (case_match; cbn -[N.eqb N.ltb Nat.eqb Nat.ltb Z.ltb Z.leb] in * );
    bool_facts; subst;
    (split;
     [ split; [lia | intros Ht; first [congruence | lia | specialize (Hc Ht); lia]]
     | intros Ht;
       first [congruence | lia | specialize (Hq Ht); first [congruence | lia]] ]).
Qed.

(** X3.  When the loop ends inside a block comment, [Parse] returns the
    comment error, no quote being open then, and the statements
    collected by the loop followed by the dangling text, which is not
    empty. *)
Theorem Parse_unterminated_comment sf contents :
  inCComment (final_scan sf contents) = true →
  Parse sf (inr contents) =
    (result (final_scan sf contents)
       ++ [with_Text (stmt (final_scan sf contents))
             (slice_from contents (startStatement (final_scan sf contents)))],
     Some (Errorf "File %s has unterminated C-style comment" [ArgFile sf]))
  ∧ slice_from contents (startStatement (final_scan sf contents)) ≠ ""%string.
Proof.
  intros Hopen.
  destruct (run_keeps (λ st b, comment_inv st b
                                ∧ (inCComment st = true → inQuote st = 0%N))
              sf contents) with (rs := range contents) (st := scan_init sf) (b := 0)
    as (b & Hb & [Hle Hc] & Hq).
  - intros st b n c H Hbn _ _. apply (step_comment_inv _ _ _ st b); assumption.
  - split; [split; [cbn; lia | discriminate] | discriminate].
  - apply range_is_ok.
  - fold (final_scan sf contents) in Hle, Hc, Hq.
    specialize (Hc Hopen). specialize (Hq Hopen).
    assert (Hlen : String.length (slice_from contents
                     (startStatement (final_scan sf contents))) ≠ 0).
    { unfold slice_from. rewrite substring_length; lia. }
    split.
    + unfold Parse, finish. cbn [Text with_Text]. rewrite Hq, Hopen.
      cbn [N.eqb negb].
      destruct (0 <? String.length _)%nat eqn:E; [reflexivity|].
      apply Nat.ltb_ge in E. lia.
    + intros Hempty. rewrite Hempty in Hlen. auto.
Qed.

(** The theorem at a file that opens a comment and never closes it. *)
Lemma Parse_unterminated_comment_witness :
  inCComment (final_scan example_file "SELECT 1; /* todo") = true
  ∧ Parse example_file (inr "SELECT 1; /* todo"%string)
    = ([mkStatement example_file 1 1 "SELECT 1;";
        mkStatement example_file 1 10 " ";
        mkStatement example_file 1 11 " /* todo"],
       Some (Errorf "File %s has unterminated C-style comment"
               [ArgFile example_file])).
Proof.
  assert (H : inCComment (final_scan example_file "SELECT 1; /* todo") = true)
    by reflexivity.
  split; [exact H|].
  destruct (Parse_unterminated_comment example_file "SELECT 1; /* todo" H)
    as (-> & _).
  reflexivity.
Defined.

(** ** Files without quotes or stars *)

Lemma step_plain sf contents last st n (c : rune) :
  inQuote st = 0%N → inCComment st = false →
  c ≠ 34%N → c ≠ 96%N → c ≠ 39%N → c ≠ 42%N →
  inQuote (step sf contents last st (n, c)) = 0%N
  ∧ inCComment (step sf contents last st (n, c)) = false.
Proof.
  intros Hq Hc H1 H2 H3 H4. unfold step, dispatch.
  repeat (case_match; cbn -[N.eqb N.ltb Nat.eqb Nat.ltb Z.ltb Z.leb] in * );
    bool_facts; subst; try congruence; try lia; auto.
Qed.

(** X4.  A file in which no quote character and no star occurs is parsed
    without error. *)
Theorem Parse_no_error_without_quote_or_star sf contents :
  Forall (λ nc : nat * rune,
            snd nc ≠ 34%N ∧ snd nc ≠ 96%N ∧ snd nc ≠ 39%N ∧ snd nc ≠ 42%N)
         (range contents) →
  snd (Parse sf (inr contents)) = None.
Proof.
  intros Hall.
  assert (Hrun : ∀ rs st,
            Forall (λ nc : nat * rune,
                      snd nc ≠ 34%N ∧ snd nc ≠ 96%N ∧ snd nc ≠ 39%N ∧ snd nc ≠ 42%N) rs →
            inQuote st = 0%N → inCComment st = false →
            inQuote (run sf contents rs st) = 0%N
            ∧ inCComment (run sf contents rs st) = false).
  { induction rs as [|[n c] rs IH]; intros st Hrs Hq Hc; [auto|].
    apply Forall_cons in Hrs. destruct Hrs as [(H1 & H2 & H3 & H4) Hrs].
    cbn [snd] in *. unfold run. cbn [fold_left].
    destruct (step_plain sf contents
                (Z.of_nat (String.length contents) - 1) st n c Hq Hc H1 H2 H3 H4)
      as [Hq' Hc'].
    apply (IH _ Hrs Hq' Hc'). }
  destruct (Hrun (range contents) (scan_init sf) Hall eq_refl eq_refl) as [Hq Hc].
  fold (final_scan sf contents) in Hq, Hc.
  unfold Parse, finish. cbn [snd]. rewrite Hq, Hc. reflexivity.
Qed.

(** The theorem at a file with a line comment and two statements. *)
Lemma Parse_no_error_without_quote_or_star_witness :
  snd (Parse example_file (inr "# setup; USE shop; SELECT 1"%string)) = None.
Proof.
  apply Parse_no_error_without_quote_or_star.
  let r := eval vm_compute in (range "# setup; USE shop; SELECT 1") in
  change (range "# setup; USE shop; SELECT 1") with r.
  repeat (constructor; [cbn [snd]; repeat split; discriminate|]).
  constructor.
Defined.

(** ** Line numbers *)

Lemma append_to_last_LineNo l t :
  map LineNo (append_to_last l t) = map LineNo l.
Proof.
  induction l as [|y l IH]; [reflexivity|].
  cbn [append_to_last]. destruct l as [|z l]; [reflexivity|].
  cbn [map] in *. rewrite IH. reflexivity.
Qed.

Lemma step_lines sf contents last st n (c : rune) :
  lineNo (step sf contents last st (n, c))
  = lineNo st + (if (c =? 10)%N then 1 else 0)
  ∧ ((map LineNo (result (step sf contents last st (n, c))) = map LineNo (result st)
      ∧ (LineNo (stmt (step sf contents last st (n, c))) = LineNo (stmt st)
         ∨ (c = 10%N
            ∧ LineNo (stmt (step sf contents last st (n, c))) = S (LineNo (stmt st)))))
     ∨ (map LineNo (result (step sf contents last st (n, c)))
        = map LineNo (result st) ++ [LineNo (stmt st)]
        ∧ c ≠ 10%N
        ∧ LineNo (stmt (step sf contents last st (n, c))) = lineNo st)
     ∨ (map LineNo (result (step sf contents last st (n, c)))
        = map LineNo (result st) ++ [LineNo (stmt st); lineNo st]
        ∧ c ≠ 10%N
        ∧ LineNo (stmt (step sf contents last st (n, c))) = lineNo st)).
Proof.
  unfold step, dispatch.
  repeat (case_match; cbn -[N.eqb N.ltb Nat.eqb Nat.ltb Z.ltb Z.leb slice] in * );
    bool_facts; subst;
    rewrite ?append_to_last_LineNo, ?map_app; cbn [map LineNo with_Text];
    rewrite <- ?app_assoc; cbn [app];
    (split; [lia|]);
    first
      [ left; split; [reflexivity|]; left; reflexivity
      | left; split; [reflexivity|]; right; split; [reflexivity | lia]
      | right; left; split; [reflexivity|]; split; [congruence | reflexivity]
      | right; right; split; [reflexivity|]; split; [congruence | reflexivity] ].
Qed.

Lemma sorted_snoc (l : list nat) x :
  StronglySorted le l → Forall (λ k, k ≤ x) l → StronglySorted le (l ++ [x]).
Proof.
  intros Hl Hx. apply StronglySorted_app_2.
  - intros a b' Ha Hb'. apply list_elem_of_singleton in Hb'. subst b'.
    rewrite Forall_forall in Hx. apply Hx, Ha.
  - exact Hl.
  - repeat constructor.
Qed.

Lemma lines_step sf contents last st k n (c : rune) :
  lines_ok st k →
  lines_ok (step sf contents last st (n, c))
           (k + (if (c =? 10)%N then 1 else 0)).
Proof.
  intros (Hsorted & Hall & H1 & Hle & Hline). unfold lines_ok.
  destruct (step_lines sf contents last st n c) as [Hl Hcases].
  remember (step sf contents last st (n, c)) as st' eqn:Hst'. clear Hst'.
  assert (Hbound : Forall (λ j, j ≤ LineNo (stmt st)) (map LineNo (result st)))
    by (eapply Forall_impl; [exact Hall | intros j [_ Hj]; exact Hj]).
  destruct Hcases as [(Hres & Hstmt) | [(Hres & Hc & Hstmt) | (Hres & Hc & Hstmt)]];
    rewrite Hres.
  - split; [exact Hsorted|]. split; [|split; [|split]].
    + eapply Forall_impl; [exact Hall|]. intros j [Hj1 Hj2].
      destruct Hstmt as [-> | [_ ->]]; lia.
    + destruct Hstmt as [-> | [_ ->]]; lia.
    + destruct Hstmt as [-> | [-> ->]]; rewrite Hl; cbn; lia.
    + rewrite Hl, Hline. lia.
  - apply N.eqb_neq in Hc. rewrite Hc in Hl |- *. rewrite Hstmt.
    split; [apply sorted_snoc; assumption|]. split; [|split; [|split]].
    + apply Forall_app. split.
      * eapply Forall_impl; [exact Hall|]. intros j [Hj1 Hj2]. lia.
      * constructor; [lia | constructor].
    + lia.
    + lia.
    + lia.
  - apply N.eqb_neq in Hc. rewrite Hc in Hl |- *. rewrite Hstmt.
    change [LineNo (stmt st); lineNo st] with ([LineNo (stmt st)] ++ [lineNo st]).
    rewrite app_assoc.
    split; [|split; [|split; [|split]]].
    + apply sorted_snoc; [apply sorted_snoc; assumption|].
      apply Forall_app. split.
      * eapply Forall_impl; [exact Hbound|]. intros j Hj. cbn beta in Hj. lia.
      * constructor; [lia | constructor].
    + apply Forall_app. split; [apply Forall_app; split|].
      * eapply Forall_impl; [exact Hall|]. intros j [Hj1 Hj2]. lia.
      * constructor; [lia | constructor].
      * constructor; [lia | constructor].
    + lia.
    + lia.
    + lia.
Qed.

Lemma count_LF_cons n (c : rune) rs :
  count_LF ((n, c) :: rs) = (if (c =? 10)%N then 1 else 0) + count_LF rs.
Proof.
  unfold count_LF. cbn [filter list_filter snd].
  destruct (N.eqb_spec c 10) as [->|Hne].
  - rewrite decide_True by reflexivity. reflexivity.
  - rewrite decide_False by exact Hne. reflexivity.
Qed.

Lemma lines_run sf contents rs : ∀ st k,
  lines_ok st k → lines_ok (run sf contents rs st) (k + count_LF rs).
Proof.
  induction rs as [|[n c] rs IH]; intros st k Hok.
  - unfold count_LF. cbn. rewrite Nat.add_0_r. exact Hok.
  - unfold run. cbn [fold_left]. rewrite count_LF_cons, Nat.add_assoc.
    apply IH, lines_step, Hok.
Qed.

(** X5.  The line numbers of the statements [Parse] returns never decrease
    along the result, start at 1 and do not go beyond one more than the
    number of line feeds in the file. *)
Theorem Parse_line_numbers sf contents :
  StronglySorted le (map LineNo (fst (Parse sf (inr contents))))
  ∧ Forall (λ k, 1 ≤ k ≤ S (count_LF (range contents)))
           (map LineNo (fst (Parse sf (inr contents)))).
Proof.
  assert (Hinit : lines_ok (scan_init sf) 0).
  { unfold lines_ok. cbn. repeat split; try lia; constructor. }
  pose proof (lines_run sf contents (range contents) _ _ Hinit)
    as (Hsorted & Hall & H1 & Hle & Hline).
  fold (final_scan sf contents) in Hsorted, Hall, H1, Hle, Hline.
  cbn [Nat.add] in Hline.
  assert (Hall' : Forall (λ k, 1 ≤ k ≤ S (count_LF (range contents)))
                    (map LineNo (result (final_scan sf contents)))).
  { eapply Forall_impl; [exact Hall|]. intros j [Hj1 Hj2]. cbn beta. lia. }
  unfold Parse, finish. cbn [fst].
  destruct (0 <? String.length _)%nat; [|auto].
  rewrite map_app. cbn [map LineNo with_Text]. split.
  - apply sorted_snoc; [exact Hsorted|].
    eapply Forall_impl; [exact Hall|]. intros j [_ Hj]. exact Hj.
  - apply Forall_app. split; [exact Hall'|]. constructor; [lia | constructor].
Qed.

End FsMore.

(** * More on the index comparisons *)

Module TengoMore.
Import Tengo TengoProofs.
Local Close Scope string_scope.

(** ** The prefix loop *)

Lemma part_covers_test (p q : IndexPart) :
  (negb (String.eqb (ColumnName p) (ColumnName q))
   || negb (String.eqb (Expression p) (Expression q))
   || negb (Bool.eqb (Descending p) (Descending q))) = false
  ∧ ((PrefixLength q >? 0)%Z
     && ((PrefixLength p =? 0)%Z || (PrefixLength p >? PrefixLength q)%Z)) = false
  ↔ part_covers p q.
Proof.
  unfold part_covers. rewrite !orb_false_iff, !negb_false_iff.
  rewrite !String.eqb_eq, Bool.eqb_true_iff, !Z.gtb_ltb.
  destruct (Z.ltb_spec 0 (PrefixLength q)), (Z.eqb_spec (PrefixLength p) 0),
    (Z.ltb_spec (PrefixLength q) (PrefixLength p)); cbn [andb orb];
    intuition (try discriminate; try lia).
Qed.

Lemma redundant_from_spec (mine : list IndexPart) : ∀ (other : list IndexPart) n,
  length mine + n ≤ length other →
  ∃ v, redundant_from n mine other = Some v
       ∧ (v = true ↔ Forall2 part_covers mine (take (length mine) (drop n other))).
Proof.
  induction mine as [|p rest IH]; intros other n Hlen; cbn [redundant_from length].
  - exists true. split; [reflexivity|]. rewrite take_0. split; [constructor | reflexivity].
  - cbn [length] in Hlen.
    destruct (lookup_lt_is_Some_2 other n) as [q Hq]; [lia|].
    rewrite Hq. cbn [mbind option_bind]. rewrite (drop_S _ _ _ Hq). cbn [take].
    destruct (IH other (S n) ltac:(lia)) as (v & Hv & Hiff).
    pose proof (part_covers_test p q) as Htest.
    destruct (negb _ || negb _ || negb _) eqn:E1.
    { exists false. split; [reflexivity|]. split; [discriminate|].
      intros H. apply Forall2_cons in H. destruct H as [H _].
      apply Htest in H. destruct H as [H _]. discriminate. }
    destruct (_ && _) eqn:E2.
    { exists false. split; [reflexivity|]. split; [discriminate|].
      intros H. apply Forall2_cons in H. destruct H as [H _].
      apply Htest in H. destruct H as [_ H]. discriminate. }
    exists v. split; [exact Hv|]. rewrite Hiff, Forall2_cons.
    split; [intros H; split; [apply Htest; auto | exact H] | intros [_ H]; exact H].
Qed.

Lemma redundant_from_left_prefix (a b : list IndexPart) :
  length a ≤ length b →
  ∃ v, redundant_from 0 a b = Some v ∧ (v = true ↔ left_prefix a b).
Proof.
  intros Hlen. destruct (redundant_from_spec a b 0 ltac:(lia)) as (v & Hv & Hiff).
  exists v. split; [exact Hv|]. rewrite Hiff, drop_0. unfold left_prefix.
  intuition.
Qed.

Lemma part_covers_trans (p q r : IndexPart) :
  (0 ≤ PrefixLength q)%Z → part_covers p q → part_covers q r → part_covers p r.
Proof.
  unfold part_covers. intros Hq (-> & -> & -> & Hpq) (-> & -> & -> & Hqr).
  do 3 (split; [reflexivity|]). intros Hr.
  destruct (Hqr Hr). destruct (Hpq ltac:(lia)). split; [assumption | lia].
Qed.

Lemma left_prefix_trans (a b c : list IndexPart) :
  prefix_lengths_in_range b →
  left_prefix a b → left_prefix b c → left_prefix a c.
Proof.
  unfold left_prefix, prefix_lengths_in_range.
  intros Hrange [Hab Fab] [Hbc Fbc]. split; [lia|].
  revert b c Hrange Hab Fab Hbc Fbc.
  induction a as [|p a IH]; intros b c Hrange Hab Fab Hbc Fbc; [constructor|].
  destruct b as [|q b]; [cbn in Hab; lia|].
  destruct c as [|r c]; [cbn in Hbc; lia|].
  cbn [length take] in *.
  apply Forall2_cons in Fab. destruct Fab as [Hpq Fab].
  apply Forall2_cons in Fbc. destruct Fbc as [Hqr Fbc].
  apply Forall_cons in Hrange. destruct Hrange as [Hq Hrange].
  apply Forall2_cons. split.
  - apply (part_covers_trans p q r); [lia | assumption | assumption].
  - apply (IH b c); [assumption | lia | assumption | lia | assumption].
Qed.

Lemma part_covers_antisym (p q : IndexPart) :
  (0 ≤ PrefixLength p)%Z → (0 ≤ PrefixLength q)%Z →
  part_covers p q → part_covers q p → p = q.
Proof.
  unfold part_covers. destruct p as [c1 e1 l1 d1], q as [c2 e2 l2 d2]. cbn.
  intros Hp Hq (-> & -> & -> & H1) (_ & _ & _ & H2).
  f_equal. destruct (Z.eq_dec l2 0%Z) as [->|Hne].
  - destruct (Z.eq_dec l1 0%Z) as [->|Hne1]; [reflexivity|].
    destruct (H2 ltac:(lia)). lia.
  - destruct (H1 ltac:(lia)). destruct (H2 ltac:(lia)). lia.
Qed.

Lemma left_prefix_antisym (a b : list IndexPart) :
  prefix_lengths_in_range a → prefix_lengths_in_range b →
  left_prefix a b → left_prefix b a → a = b.
Proof.
  unfold left_prefix, prefix_lengths_in_range.
  intros Ha Hb [Hab Fab] [Hba Fba].
  assert (Hlen : length a = length b) by lia. clear Hab Hba.
  rewrite Hlen in Fab. rewrite <- Hlen in Fba.
  rewrite take_ge in Fab, Fba by lia. clear Hlen.
  revert b Ha Hb Fab Fba. induction a as [|p a IH]; intros b Ha Hb Fab Fba.
  - apply Forall2_nil_inv_l in Fab. congruence.
  - destruct b as [|q b]; [apply Forall2_nil_inv_r in Fab; discriminate|].
    apply Forall2_cons in Fab, Fba. destruct Fab as [Hpq Fab], Fba as [Hqp Fba].
    apply Forall_cons in Ha, Hb. destruct Ha as [Hp Ha], Hb as [Hq Hb].
    f_equal; [apply part_covers_antisym; (assumption || lia) | apply IH; assumption].
Qed.

(** ** When an index is redundant to another *)

Section WithLexing.
Context {L : Lexing}.

Lemma sameParts_true (a b : Index) :
  sameParts a b = Some true ↔ Parts a = Parts b.
Proof.
  rewrite sameParts_spec. split.
  - intros [= H]. apply bool_decide_eq_true in H. exact H.
  - intros H. f_equal. apply bool_decide_eq_true. exact H.
Qed.

Lemma and_then_true x y : and_then x y = Some true ↔ x = Some true ∧ y = Some true.
Proof. destruct x as [[]|]; cbn; intuition discriminate. Qed.

Lemma RedundantTo_true (a b : Index) :
  RedundantTo (Some a) (Some b) = Some true ↔
  PrimaryKey a = false ∧ (Unique a = true → Unique b = true)
  ∧ Type_ a = Type_ b ∧ FullTextParser a = FullTextParser b
  ∧ (Invisible b = true → Invisible a = true)
  ∧ (if Unique a then Parts a = Parts b
     else if String.eqb (Type_ a) "VECTOR"
     then Parts a = Parts b ∧ sameAttributes a b = Some true
     else (Type_ a = "FULLTEXT"%string → length (Parts a) = length (Parts b))
          ∧ left_prefix (Parts a) (Parts b)).
Proof.
  unfold RedundantTo.
  destruct (PrimaryKey a); [cbn; intuition discriminate|].
  destruct (String.eqb_spec (Type_ a) (Type_ b)) as [Ht|Ht];
    [|cbn; rewrite ?orb_true_r; cbn; intuition discriminate].
  destruct (String.eqb_spec (FullTextParser a) (FullTextParser b)) as [Hp|Hp];
    [|cbn; rewrite ?orb_true_r; cbn; intuition discriminate].
  destruct (Unique a) eqn:Ua, (Unique b) eqn:Ub; cbn [negb andb orb];
    try (intuition discriminate);
    (destruct (Invisible a) eqn:Ia, (Invisible b) eqn:Ib; cbn [negb andb];
     try (intuition discriminate)).
  1-3: rewrite sameParts_true; intuition.
  all: destruct (String.eqb (Type_ a) "VECTOR");
    [ rewrite and_then_true, sameParts_true; intuition |].
  all: destruct (String.eqb_spec (Type_ a) "FULLTEXT") as [Hf|Hf]; cbn [andb].
  all: destruct (Nat.eqb_spec (length (Parts a)) (length (Parts b))) as [Hl|Hl];
    cbn [negb];
    try (split; [discriminate | intros (_ & _ & _ & _ & _ & H & _); tauto]).
  all: destruct (Nat.ltb_spec (length (Parts b)) (length (Parts a))) as [Hlt|Hge];
    try (split; [discriminate
                | intros (_ & _ & _ & _ & _ & _ & [Hlen _]); lia]).
  all: destruct (redundant_from_left_prefix (Parts a) (Parts b) Hge)
         as (v & -> & Hv);
    split; [intros [= ->]; intuition | intros (_ & _ & _ & _ & _ & _ & H);
            f_equal; apply Hv, H].
Qed.

Lemma part_covers_refl (p : IndexPart) : part_covers p p.
Proof. unfold part_covers. repeat split; lia. Qed.

Lemma left_prefix_refl (l : list IndexPart) : left_prefix l l.
Proof.
  split; [lia|]. rewrite take_ge by lia.
  induction l; constructor; auto using part_covers_refl.
Qed.

(** X7.  [RedundantTo] answers true only for two indexes that exist, the first
    of which is not a primary key, is unique only if the second is, has
    the type and parser of the second, is invisible if the second is,
    and has parts that pass the column, expression, direction and prefix
    tests against the leading parts of the second. *)
Theorem RedundantTo_only_if (x y : option Index) :
  RedundantTo x y = Some true →
  ∃ a b, x = Some a ∧ y = Some b
    ∧ PrimaryKey a = false ∧ (Unique a = true → Unique b = true)
    ∧ Type_ a = Type_ b ∧ FullTextParser a = FullTextParser b
    ∧ (Invisible b = true → Invisible a = true)
    ∧ left_prefix (Parts a) (Parts b).
Proof.
  destruct x as [a|], y as [b|]; try discriminate.
  intros H. apply RedundantTo_true in H.
  destruct H as (Hpk & Hu & Ht & Hp & Hi & Hparts).
  exists a, b. do 7 (split; [first [reflexivity | assumption]|]).
  destruct (Unique a); [rewrite Hparts; apply left_prefix_refl|].
  destruct (String.eqb (Type_ a) "VECTOR").
  - destruct Hparts as [-> _]. apply left_prefix_refl.
  - apply Hparts.
Qed.

(** X8.  [RedundantTo] returns a verdict (it does not panic) unless the first
    index is of type VECTOR and the two attribute strings differ. *)
Theorem RedundantTo_no_panic (x y : option Index) :
  RedundantTo x y = None →
  ∃ a b, x = Some a ∧ y = Some b ∧ Type_ a = "VECTOR"%string
         ∧ Attributes a ≠ Attributes b.
Proof.
  destruct x as [a|], y as [b|]; try discriminate.
  unfold RedundantTo. intros H. exists a, b. split; [reflexivity|].
  split; [reflexivity|]. revert H.
  repeat (case_match; try discriminate); try (rewrite sameParts_spec; discriminate).
  - rewrite sameParts_spec. unfold and_then, sameAttributes.
    destruct (String.eqb_spec (Attributes a) (Attributes b)) as [He|Hne].
    + destruct (bool_decide _); discriminate.
    + intros _. split; [apply String.eqb_eq; assumption | exact Hne].
  - match goal with H : (_ <? _)%nat = false |- _ => apply Nat.ltb_ge in H;
      destruct (redundant_from_left_prefix (Parts a) (Parts b) H) as (v & -> & _)
    end. discriminate.
Qed.

(** X9.  Two equivalent indexes are redundant to each other's place: if [a]
    and [b] are equivalent, [a] is not a primary key and [b] is not
    invisible next to a visible [a], then [a] is redundant to [b]. *)
Theorem Equivalent_RedundantTo (a b : Index) :
  Equivalent (Some a) (Some b) = Some true →
  PrimaryKey a = false → (Invisible b = true → Invisible a = true) →
  RedundantTo (Some a) (Some b) = Some true.
Proof.
  unfold Equivalent. intros H Hpk Hinv. apply RedundantTo_true.
  destruct (negb _ || negb _ || negb _ || negb _) eqn:E; [discriminate|].
  apply and_then_true in H. destruct H as [Hparts Hattr].
  apply sameParts_true in Hparts.
  repeat (apply orb_false_iff in E; destruct E as [E ?]).
  repeat match goal with H : negb _ = false |- _ => apply negb_false_iff in H end.
  repeat match goal with
         | H : String.eqb _ _ = true |- _ => apply String.eqb_eq in H
         | H : Bool.eqb _ _ = true |- _ => apply Bool.eqb_prop in H
         end.
  split; [exact Hpk|]. split; [congruence|]. split; [assumption|].
  split; [assumption|]. split; [exact Hinv|].
  destruct (Unique a); [exact Hparts|].
  destruct (String.eqb (Type_ a) "VECTOR"); [auto|].
  split; [intros _; congruence | rewrite Hparts; apply left_prefix_refl].
Qed.

(** X10.  Redundancy is transitive on indexes whose type is not VECTOR (the
    prefix lengths of the middle index being in the range of their
    type). *)
Theorem RedundantTo_transitive (a b c : Index) :
  Type_ a ≠ "VECTOR"%string →
  prefix_lengths_in_range (Parts b) →
  RedundantTo (Some a) (Some b) = Some true →
  RedundantTo (Some b) (Some c) = Some true →
  RedundantTo (Some a) (Some c) = Some true.
Proof.
  intros Hv Hrange Hab Hbc.
  apply RedundantTo_true in Hab, Hbc. apply RedundantTo_true.
  destruct Hab as (Hpk & Hu & Ht & Hp & Hi & Hparts).
  destruct Hbc as (Hpk' & Hu' & Ht' & Hp' & Hi' & Hparts').
  apply String.eqb_neq in Hv. rewrite Hv in *.
  assert (Hvb : String.eqb (Type_ b) "VECTOR" = false) by (rewrite <- Ht; exact Hv).
  rewrite Hvb in Hparts'.
  split; [exact Hpk|]. split; [auto|]. split; [congruence|].
  split; [congruence|]. split; [auto|].
  destruct (Unique a) eqn:Ua.
  - rewrite (Hu eq_refl) in Hparts'. congruence.
  - destruct Hparts as [Hft Hpre].
    destruct (Unique b) eqn:Ub.
    + rewrite <- Hparts'. auto.
    + destruct Hparts' as [Hft' Hpre']. split.
      * intros Hf. rewrite (Hft Hf). apply Hft'. congruence.
      * apply (left_prefix_trans _ (Parts b)); assumption.
Qed.

(** X11.  Two indexes each redundant to the other have the same parts, the
    same uniqueness and the same visibility, and neither is a primary
    key. *)
Theorem RedundantTo_mutual (a b : Index) :
  prefix_lengths_in_range (Parts a) → prefix_lengths_in_range (Parts b) →
  RedundantTo (Some a) (Some b) = Some true →
  RedundantTo (Some b) (Some a) = Some true →
  Parts a = Parts b ∧ Unique a = Unique b ∧ Invisible a = Invisible b
  ∧ PrimaryKey a = false ∧ PrimaryKey b = false.
Proof.
  intros Ha Hb Hab Hba.
  pose proof (RedundantTo_only_if _ _ Hab)
    as (a' & b' & [= <-] & [= <-] & Hpk & Hu & _ & _ & Hi & Hpre).
  pose proof (RedundantTo_only_if _ _ Hba)
    as (b' & a' & [= <-] & [= <-] & Hpk' & Hu' & _ & _ & Hi' & Hpre').
  split; [apply left_prefix_antisym; assumption|].
  split; [destruct (Unique a), (Unique b); auto; symmetry; auto|].
  split; [destruct (Invisible a), (Invisible b); auto; symmetry; auto|].
  auto.
Qed.

(** ** Equivalent is an equivalence *)

Lemma sameAttributes_sym (a b : Index) : sameAttributes a b = sameAttributes b a.
Proof.
  unfold sameAttributes. rewrite (String.eqb_sym (Attributes b)).
  destruct (String.eqb (Attributes a) (Attributes b)); [reflexivity|].
  destruct (attrStringToMap a), (attrStringToMap b); cbn; try reflexivity.
  f_equal. apply bool_decide_ext. split; congruence.
Qed.

(** X12.  [Equivalent] gives the same answer, a panic included, whichever of
    the two indexes is the receiver. *)
Theorem Equivalent_symmetric (x y : option Index) :
  Equivalent x y = Equivalent y x.
Proof.
  destruct x as [a|], y as [b|]; try reflexivity. unfold Equivalent.
  assert (Hsym : ∀ u v, Bool.eqb u v = Bool.eqb v u) by (intros [] []; reflexivity).
  rewrite (Hsym (PrimaryKey b)), (Hsym (Unique b)).
  rewrite (String.eqb_sym (Type_ b)), (String.eqb_sym (FullTextParser b)).
  destruct (negb _ || negb _ || negb _ || negb _); [reflexivity|].
  rewrite !sameParts_spec, sameAttributes_sym.
  rewrite (bool_decide_ext (Parts a = Parts b) (Parts b = Parts a))
    by (split; congruence).
  reflexivity.
Qed.

Lemma attrStringToMap_ext (a b : Index) :
  Type_ a = Type_ b → Attributes a = Attributes b →
  attrStringToMap a = attrStringToMap b.
Proof. unfold attrStringToMap. intros -> ->. reflexivity. Qed.

Lemma sameAttributes_true (a b : Index) :
  sameAttributes a b = Some true ↔
  Attributes a = Attributes b
  ∨ ∃ m, attrStringToMap a = Some m ∧ attrStringToMap b = Some m.
Proof.
  unfold sameAttributes.
  destruct (String.eqb_spec (Attributes a) (Attributes b)) as [He|Hne];
    [intuition|].
  destruct (attrStringToMap a) as [m1|], (attrStringToMap b) as [m2|]; cbn;
    try (split; [discriminate | intros [?|(m & ? & ?)]; congruence]).
  split.
  - intros [= H]. apply bool_decide_eq_true in H. subst. eauto.
  - intros [?|(m & [= ->] & [= ->])]; [contradiction|].
    f_equal. apply bool_decide_eq_true. reflexivity.
Qed.

(** X13.  [Equivalent] holds between every index and itself, and between the
    first and the last of three indexes when it holds between the first
    two and between the last two. *)
Theorem Equivalent_reflexive_transitive (a b c : Index) :
  Equivalent (Some a) (Some a) = Some true
  ∧ (Equivalent (Some a) (Some b) = Some true →
     Equivalent (Some b) (Some c) = Some true →
     Equivalent (Some a) (Some c) = Some true).
Proof.
  assert (Hchar : ∀ x y : Index,
            Equivalent (Some x) (Some y) = Some true ↔
            (PrimaryKey x = PrimaryKey y ∧ Unique x = Unique y
             ∧ Type_ x = Type_ y ∧ FullTextParser x = FullTextParser y)
            ∧ Parts x = Parts y ∧ sameAttributes x y = Some true).
  { intros x y. unfold Equivalent.
    destruct (Bool.eqb_spec (PrimaryKey x) (PrimaryKey y)),
      (Bool.eqb_spec (Unique x) (Unique y)),
      (String.eqb_spec (Type_ x) (Type_ y)),
      (String.eqb_spec (FullTextParser x) (FullTextParser y));
      cbn [negb orb];
      try (split; [discriminate | intros [(? & ? & ? & ?) _]; contradiction]).
    rewrite and_then_true, sameParts_true. intuition. }
  split.
  - apply Hchar. repeat split. apply sameAttributes_true. left. reflexivity.
  - intros Hab Hbc. apply Hchar in Hab, Hbc. apply Hchar.
    destruct Hab as ((? & ? & Ht & ?) & ? & Hat), Hbc as ((? & ? & Ht' & ?) & ? & Hat').
    split; [repeat split; congruence|]. split; [congruence|].
    apply sameAttributes_true in Hat, Hat'. apply sameAttributes_true.
    destruct Hat as [He | (m & Ha & Hb)], Hat' as [He' | (m' & Hb' & Hc)].
    + left. congruence.
    + right. exists m'. split; [|exact Hc].
      rewrite (attrStringToMap_ext a b Ht He). exact Hb'.
    + right. exists m. split; [exact Ha|].
      rewrite <- (attrStringToMap_ext b c Ht' He'). exact Hb.
    + right. exists m. split; [exact Ha|]. congruence.
Qed.

End WithLexing.

(** The theorems at the example indexes. *)

Lemma RedundantTo_only_if_witness :
  @RedundantTo model_lexing (Some key_a) (Some key_ab) = Some true
  ∧ left_prefix (Parts key_a) (Parts key_ab).
Proof.
  assert (H : @RedundantTo model_lexing (Some key_a) (Some key_ab) = Some true)
    by reflexivity.
  split; [exact H|].
  destruct (@RedundantTo_only_if model_lexing _ _ H)
    as (a & b & [= <-] & [= <-] & _ & _ & _ & _ & _ & Hpre).
  exact Hpre.
Defined.

Lemma RedundantTo_no_panic_witness :
  @RedundantTo model_lexing (Some example_vector_lone_quote) (Some example_vector)
  = None
  ∧ Attributes example_vector_lone_quote ≠ Attributes example_vector.
Proof.
  assert (H : @RedundantTo model_lexing (Some example_vector_lone_quote)
                 (Some example_vector) = None) by reflexivity.
  split; [exact H|].
  destruct (@RedundantTo_no_panic model_lexing _ _ H)
    as (a & b & [= <-] & [= <-] & _ & Hne).
  exact Hne.
Defined.

Lemma Equivalent_RedundantTo_witness :
  @Equivalent model_lexing (Some key_a) (Some key_a_copy) = Some true
  ∧ @RedundantTo model_lexing (Some key_a) (Some key_a_copy) = Some true.
Proof.
  assert (H : @Equivalent model_lexing (Some key_a) (Some key_a_copy) = Some true)
    by reflexivity.
  split; [exact H|].
  apply (@Equivalent_RedundantTo model_lexing key_a key_a_copy H eq_refl).
  intros Hinv. exact Hinv.
Defined.

Lemma RedundantTo_transitive_witness :
  @RedundantTo model_lexing (Some key_a) (Some key_abc) = Some true.
Proof.
  apply (@RedundantTo_transitive model_lexing key_a key_ab key_abc).
  - discriminate.
  - repeat constructor; cbn; lia.
  - reflexivity.
  - reflexivity.
Defined.

Lemma RedundantTo_mutual_witness :
  Parts key_a = Parts key_a_copy ∧ Unique key_a = Unique key_a_copy.
Proof.
  destruct (@RedundantTo_mutual model_lexing key_a key_a_copy) as (H1 & H2 & _).
  - repeat constructor; cbn; lia.
  - repeat constructor; cbn; lia.
  - reflexivity.
  - reflexivity.
  - exact (conj H1 H2).
Defined.

Lemma Equivalent_reflexive_transitive_witness :
  @Equivalent model_lexing (Some key_a) (Some key_a) = Some true.
Proof.
  exact (proj1 (@Equivalent_reflexive_transitive model_lexing key_a key_a key_a)).
Defined.

End TengoMore.

(** * Escaping, SQL modes and DSNs *)

Module TengoStrings.
Import Tengo TengoProofs.
Local Close Scope string_scope.

Lemma append_length (a b : string) :
  String.length (a ++ b)%string = String.length a + String.length b.
Proof.
  induction a as [|x a IH]; [reflexivity|].
  rewrite append_cons. cbn [String.length]. rewrite IH. reflexivity.
Qed.

Lemma append_inv_tail (a b c : string) :
  (a ++ c)%string = (b ++ c)%string → a = b.
Proof.
  revert b. induction a as [|x a IH]; intros [|y b] H.
  - reflexivity.
  - apply (f_equal String.length) in H.
    rewrite append_nil_l, append_cons in H. cbn [String.length] in H.
    rewrite append_length in H. lia.
  - apply (f_equal String.length) in H.
    rewrite append_nil_l, append_cons in H. cbn [String.length] in H.
    rewrite append_length in H. lia.
  - rewrite !append_cons in H. injection H as -> H. f_equal. exact (IH _ H).
Qed.

Lemma has_byte_app c (a b : string) :
  has_byte c (a ++ b)%string = has_byte c a || has_byte c b.
Proof.
  induction a as [|x a IH]; [reflexivity|].
  rewrite append_cons. cbn [has_byte]. rewrite IH.
  destruct (Ascii.eqb x c); reflexivity.
Qed.

(** ** [EscapeIdentifier] *)

Lemma undouble_ReplaceAll (s : string) :
  undouble backtick (ReplaceAll_byte s backtick "``") = s.
Proof.
  induction s as [|c s IH]; [reflexivity|].
  cbn [ReplaceAll_byte]. destruct (Ascii.eqb_spec c backtick) as [->|Hc].
  - rewrite !append_cons, append_nil_l. cbn [undouble].
    rewrite Ascii.eqb_refl, IH. reflexivity.
  - rewrite append_cons, append_nil_l. cbn [undouble].
    destruct (Ascii.eqb_spec c backtick); [contradiction|].
    rewrite IH. reflexivity.
Qed.

Lemma paired_ReplaceAll (s : string) :
  paired backtick (ReplaceAll_byte s backtick "``") = true.
Proof.
  induction s as [|c s IH]; [reflexivity|].
  cbn [ReplaceAll_byte]. destruct (Ascii.eqb_spec c backtick) as [->|Hc].
  - rewrite !append_cons, append_nil_l. cbn [paired].
    rewrite Ascii.eqb_refl, IH. reflexivity.
  - rewrite append_cons, append_nil_l. cbn [paired].
    destruct (Ascii.eqb_spec c backtick); [contradiction|]. exact IH.
Qed.

(** X16.  [EscapeIdentifier] wraps a body in two backticks; in the body
    every backtick is one of a pair, and undoing the doubling gives the
    input back. *)
Theorem EscapeIdentifier_body (input : string) :
  ∃ body, EscapeIdentifier input = ("`" ++ body ++ "`")%string
          ∧ paired backtick body = true
          ∧ undouble backtick body = input.
Proof.
  exists (ReplaceAll_byte input backtick "``"). split; [reflexivity|].
  split; [apply paired_ReplaceAll|apply undouble_ReplaceAll].
Qed.

(** X17.  [EscapeIdentifier] is injective: two different identifiers are
    never escaped to the same text. *)
Theorem EscapeIdentifier_injective (a b : string) :
  EscapeIdentifier a = EscapeIdentifier b → a = b.
Proof.
  unfold EscapeIdentifier. intros H.
  rewrite !append_cons, !append_nil_l in H. injection H as H.
  apply append_inv_tail in H.
  rewrite <- (undouble_ReplaceAll a), <- (undouble_ReplaceAll b), H.
  reflexivity.
Qed.

Lemma EscapeIdentifier_injective_witness :
  EscapeIdentifier "a`b" = EscapeIdentifier "a`b" ∧ "a`b"%string = "a`b"%string.
Proof.
  split; [reflexivity|].
  apply (EscapeIdentifier_injective "a`b" "a`b"). reflexivity.
Defined.

(** ** [EscapeValueForCreateTable] *)

Ltac by_replaced_byte c :=
  unfold replaceCreateTableByte;
  destruct (Ascii.eqb_spec c backslash) as [->|?];
  [|destruct (Ascii.eqb_spec c NUL) as [->|?];
    [|destruct (Ascii.eqb_spec c squote) as [->|?];
      [|destruct (Ascii.eqb_spec c LFb) as [->|?];
        [|destruct (Ascii.eqb_spec c CRb) as [->|?]]]]];
  rewrite ?append_cons, ?append_nil_l.

Lemma eqb_false (c d : ascii) : c ≠ d → Ascii.eqb c d = false.
Proof. intros H. destruct (Ascii.eqb_spec c d); [contradiction|reflexivity]. Qed.

Lemma unescape_Escape (s : string) :
  unescapeCreateTable (EscapeValueForCreateTable s) = s.
Proof.
  induction s as [|c s IH]; [reflexivity|].
  cbn [EscapeValueForCreateTable]. by_replaced_byte c;
    try (cbn [unescapeCreateTable]; cbn; rewrite IH; reflexivity).
  destruct (EscapeValueForCreateTable s) as [|c' r] eqn:E.
  - cbn in IH. subst s. reflexivity.
  - cbn [unescapeCreateTable]. cbn [unescapeCreateTable] in IH.
    rewrite (eqb_false c backslash), (eqb_false c squote) by assumption.
    cbn [andb]. rewrite IH. reflexivity.
Qed.

Lemma paired_Escape (s : string) :
  paired squote (EscapeValueForCreateTable s) = true.
Proof.
  induction s as [|c s IH]; [reflexivity|].
  cbn [EscapeValueForCreateTable]. by_replaced_byte c;
    try (cbn [paired]; cbn; exact IH).
  cbn [paired]. rewrite (eqb_false c squote) by assumption. exact IH.
Qed.

Lemma raw_free_Escape (q : ascii) (s : string) :
  q = NUL ∨ q = LFb ∨ q = CRb →
  has_byte q (EscapeValueForCreateTable s) = false.
Proof.
  intros Hq. induction s as [|c s IH]; [reflexivity|].
  cbn [EscapeValueForCreateTable]. by_replaced_byte c;
    try (cbn [has_byte]; rewrite IH;
         destruct Hq as [->|[->| ->]]; reflexivity).
  cbn [has_byte]. rewrite IH, orb_false_r. apply eqb_false.
  destruct Hq as [->|[->| ->]]; assumption.
Qed.

Lemma Escape_length (s : string) :
  String.length s ≤ String.length (EscapeValueForCreateTable s).
Proof.
  induction s as [|c s IH]; [reflexivity|].
  cbn [EscapeValueForCreateTable]. by_replaced_byte c; cbn [String.length]; lia.
Qed.

(** X18.  What [EscapeValueForCreateTable] returns holds no NUL, line
    feed or carriage return byte, and each single quote in it is one of
    a pair. *)
Theorem EscapeValueForCreateTable_safe (input : string) :
  has_byte NUL (EscapeValueForCreateTable input) = false
  ∧ has_byte LFb (EscapeValueForCreateTable input) = false
  ∧ has_byte CRb (EscapeValueForCreateTable input) = false
  ∧ paired squote (EscapeValueForCreateTable input) = true.
Proof.
  repeat split; try (apply raw_free_Escape; tauto). apply paired_Escape.
Qed.

(** X19.  [EscapeValueForCreateTable] is injective: the value can be read
    back from the escaped text. *)
Theorem EscapeValueForCreateTable_injective (a b : string) :
  EscapeValueForCreateTable a = EscapeValueForCreateTable b → a = b.
Proof.
  intros H. rewrite <- (unescape_Escape a), <- (unescape_Escape b), H.
  reflexivity.
Qed.

Lemma EscapeValueForCreateTable_injective_witness :
  EscapeValueForCreateTable "it's" = EscapeValueForCreateTable "it's"
  ∧ "it's"%string = "it's"%string.
Proof.
  split; [reflexivity|].
  apply (EscapeValueForCreateTable_injective "it's" "it's"). reflexivity.
Defined.

(** X20.  [EscapeValueForCreateTable] returns its input unchanged exactly
    when the input holds none of backslash, NUL, single quote, line feed
    and carriage return. *)
Theorem EscapeValueForCreateTable_unchanged (input : string) :
  EscapeValueForCreateTable input = input ↔ plain_value input.
Proof.
  unfold plain_value. induction input as [|c s IH].
  - split; [intros _; repeat split|reflexivity].
  - cbn [EscapeValueForCreateTable has_byte].
    pose proof (Escape_length s) as Hlen.
    by_replaced_byte c.
    1-5: split;
      [ intros H; exfalso; injection H as H;
        try discriminate;
        apply (f_equal String.length) in H; cbn [String.length] in H; lia
      | intros (H1 & H2 & H3 & H4 & H5); cbn in *; discriminate ].
    cbn [orb].
    split.
    + intros H. injection H as H. by apply IH.
    + intros H. f_equal. by apply IH.
Qed.

(** ** [strings.Split] and [strings.Join] *)

Lemma Split_byte_nonempty s sep : Split_byte s sep ≠ [].
Proof.
  destruct s as [|c r]; cbn [Split_byte]; [discriminate|].
  destruct (Ascii.eqb c sep); [discriminate|].
  destruct (Split_byte r sep); discriminate.
Qed.

Lemma Join_cons e l sep :
  l ≠ [] → Join (e :: l) sep = (e ++ sep ++ Join l sep)%string.
Proof. destruct l; [congruence|reflexivity]. Qed.

Lemma Join_Split s sep : Join (Split_byte s sep) (String sep "") = s.
Proof.
  induction s as [|c r IH]; [reflexivity|].
  cbn [Split_byte]. destruct (Ascii.eqb_spec c sep) as [->|Hc].
  - rewrite Join_cons by apply Split_byte_nonempty. rewrite IH. reflexivity.
  - destruct (Split_byte r sep) as [|p ps] eqn:E;
      [exfalso; by eapply Split_byte_nonempty|].
    destruct ps as [|p' ps'].
    + cbn [Join] in *. by rewrite IH.
    + rewrite Join_cons by discriminate. rewrite Join_cons in IH by discriminate.
      rewrite append_cons, IH. reflexivity.
Qed.

Lemma Split_byte_no_sep s sep :
  Forall (λ p, has_byte sep p = false) (Split_byte s sep).
Proof.
  induction s as [|c r IH]; cbn [Split_byte]; [by constructor|].
  destruct (Ascii.eqb_spec c sep) as [->|Hc].
  - constructor; [reflexivity|exact IH].
  - destruct (Split_byte r sep) as [|p ps].
    + constructor; [|constructor]. cbn [has_byte].
      by rewrite (eqb_false c sep).
    + inversion IH; subst. constructor; [|done]. cbn [has_byte].
      by rewrite (eqb_false c sep).
Qed.

Lemma Split_byte_single p sep : has_byte sep p = false → Split_byte p sep = [p].
Proof.
  induction p as [|c r IH]; [reflexivity|]. cbn [has_byte Split_byte].
  destruct (Ascii.eqb c sep); [discriminate|]. cbn [orb]. intros H.
  rewrite (IH H). reflexivity.
Qed.

Lemma Split_byte_app p r sep :
  has_byte sep p = false →
  Split_byte (p ++ String sep r)%string sep = p :: Split_byte r sep.
Proof.
  induction p as [|c p IH]; intros H.
  - rewrite append_nil_l. cbn [Split_byte]. rewrite Ascii.eqb_refl. reflexivity.
  - rewrite append_cons. cbn [has_byte] in H. cbn [Split_byte].
    destruct (Ascii.eqb c sep); [discriminate|]. rewrite (IH H). reflexivity.
Qed.

Lemma Split_Join l sep :
  l ≠ [] → Forall (λ p, has_byte sep p = false) l →
  Split_byte (Join l (String sep "")) sep = l.
Proof.
  induction l as [|p l IH]; [congruence|]. intros _ H.
  inversion H as [|? ? Hp Hl]; subst.
  destruct l as [|q l].
  - cbn [Join]. by apply Split_byte_single.
  - rewrite Join_cons by discriminate. rewrite append_cons, append_nil_l.
    rewrite Split_byte_app by done. f_equal. apply IH; [discriminate|done].
Qed.

Lemma Join_empty l sep :
  Join l (String sep "") = ""%string → l = [] ∨ l = [""%string].
Proof.
  destruct l as [|a [|b l]]; cbn [Join]; [by left|intros ->; by right|].
  destruct a; rewrite ?append_nil_l, !append_cons; discriminate.
Qed.

(** ** [FilterSQLMode] *)

Lemma filter_length_eq {A} (f : A → bool) (l : list A) :
  length (List.filter f l) = length l → List.filter f l = l.
Proof.
  induction l as [|x l IH]; [done|]. cbn [List.filter].
  pose proof (List.filter_length_le f l) as Hle.
  destruct (f x); cbn [length]; intros H; [|lia].
  f_equal. apply IH. lia.
Qed.

Lemma filter_all {A} (f : A → bool) (l : list A) :
  List.filter f l = l ↔ Forall (λ x, f x = true) l.
Proof.
  induction l as [|x l IH]; [split; [constructor|done]|].
  cbn [List.filter]. destruct (f x) eqn:E; split.
  - intros H. injection H as H. constructor; [done|by apply IH].
  - intros H. inversion H; subst. f_equal. by apply IH.
  - intros H. pose proof (List.filter_length_le f l) as Hl.
    rewrite H in Hl. cbn [length] in Hl. lia.
  - intros H. inversion H; subst. congruence.
Qed.

Lemma filter_kept {A} (f : A → bool) (P : A → Prop) (l : list A) :
  Forall P l → Forall (λ x, f x = true ∧ P x) (List.filter f l).
Proof.
  induction 1 as [|x l Hx Hl IH]; [constructor|]. cbn [List.filter].
  destruct (f x) eqn:E; [constructor|]; done.
Qed.

Lemma filter_swap {A} (f g : A → bool) (l : list A) :
  List.filter f (List.filter g l) = List.filter g (List.filter f l).
Proof.
  induction l as [|x l IH]; [done|]. cbn [List.filter].
  destruct (g x) eqn:Eg, (f x) eqn:Ef; cbn [List.filter];
    rewrite ?Eg, ?Ef, IH; reflexivity.
Qed.

Lemma filter_twice {A} (f : A → bool) (l : list A) :
  List.filter f (List.filter f l) = List.filter f l.
Proof.
  induction l as [|x l IH]; [done|]. cbn [List.filter].
  destruct (f x) eqn:Ef; cbn [List.filter]; rewrite ?Ef, IH; reflexivity.
Qed.

Lemma filterSQLMode_no_sep orig remove :
  Forall (λ p, has_byte ","%char p = false)
         (filterSQLMode (Split_byte orig ",") remove).
Proof.
  unfold filterSQLMode.
  eapply Forall_impl; [apply filter_kept, Split_byte_no_sep|].
  intros x [_ H]. exact H.
Qed.

(** Outside the empty input, the early return of [orig] is the join of
    the kept modes too. *)
Lemma FilterSQLMode_Join orig remove :
  orig ≠ ""%string →
  FilterSQLMode orig remove
  = Join (filterSQLMode (Split_byte orig ",") remove) ",".
Proof.
  intros H. unfold FilterSQLMode. destruct (String.eqb_spec orig ""); [done|].
  cbv zeta.
  destruct (Nat.eqb_spec (length (filterSQLMode (Split_byte orig ",") remove))
                         (length (Split_byte orig ","))) as [E|E]; [|done].
  unfold filterSQLMode in *. rewrite (filter_length_eq _ _ E).
  symmetry. apply Join_Split.
Qed.

Lemma FilterSQLMode_empty remove : FilterSQLMode "" remove = ""%string.
Proof. reflexivity. Qed.

(** A result that is not empty splits into the kept modes. *)
Lemma FilterSQLMode_Split orig remove :
  FilterSQLMode orig remove ≠ ""%string →
  orig ≠ ""%string
  ∧ Split_byte (FilterSQLMode orig remove) ","
    = filterSQLMode (Split_byte orig ",") remove.
Proof.
  intros H.
  assert (Ho : orig ≠ ""%string) by (intros ->; by apply H).
  split; [done|]. rewrite FilterSQLMode_Join in * by done.
  apply Split_Join; [|apply filterSQLMode_no_sep].
  intros E. rewrite E in H. by apply H.
Qed.

(** Filtering twice, by any two filters, is joining what both keep. *)
Lemma FilterSQLMode_FilterSQLMode orig r1 r2 :
  orig ≠ ""%string →
  FilterSQLMode (FilterSQLMode orig r1) r2
  = Join (filterSQLMode (filterSQLMode (Split_byte orig ",") r1) r2) ",".
Proof.
  intros Ho.
  destruct (String.eqb_spec (FilterSQLMode orig r1) "") as [E|E].
  - rewrite E, FilterSQLMode_empty. rewrite FilterSQLMode_Join in E by done.
    apply Join_empty in E as [-> | ->]; [reflexivity|].
    unfold filterSQLMode. cbn [List.filter].
    destruct (negb (flagged r2 "")); reflexivity.
  - destruct (FilterSQLMode_Split orig r1 E) as [_ HS].
    rewrite FilterSQLMode_Join by done. rewrite HS. reflexivity.
Qed.

(** X21.  For an input that is not empty, [FilterSQLMode] returns it
    unchanged exactly when none of its comma-separated modes is flagged
    by the filter. *)
Theorem FilterSQLMode_unchanged (orig : string) (remove : gmap string bool) :
  orig ≠ ""%string →
  FilterSQLMode orig remove = orig
  ↔ Forall (λ mode, flagged remove mode = false) (Split_byte orig ",").
Proof.
  intros Ho. split.
  - intros H.
    assert (Hne : FilterSQLMode orig remove ≠ ""%string) by congruence.
    destruct (FilterSQLMode_Split orig remove Hne) as [_ HS].
    rewrite H in HS. symmetry in HS. unfold filterSQLMode in HS.
    apply filter_all in HS. eapply Forall_impl; [exact HS|].
    intros x Hx. cbv beta in Hx. by destruct (flagged remove x).
  - intros H. rewrite FilterSQLMode_Join by done. unfold filterSQLMode.
    replace (List.filter _ (Split_byte orig ",")) with (Split_byte orig ",").
    + apply Join_Split.
    + symmetry. apply filter_all. eapply Forall_impl; [exact H|].
      intros x Hx. cbv beta in Hx. by rewrite Hx.
Qed.

Lemma FilterSQLMode_unchanged_witness :
  "STRICT_ALL_TABLES,NO_ZERO_DATE"%string ≠ ""%string
  ∧ (FilterSQLMode "STRICT_ALL_TABLES,NO_ZERO_DATE" IntrospectionBadSQLModes
     = "STRICT_ALL_TABLES,NO_ZERO_DATE"%string
     ↔ Forall (λ mode, flagged IntrospectionBadSQLModes mode = false)
              (Split_byte "STRICT_ALL_TABLES,NO_ZERO_DATE" ",")).
Proof.
  split; [discriminate|].
  apply (FilterSQLMode_unchanged "STRICT_ALL_TABLES,NO_ZERO_DATE"
                                 IntrospectionBadSQLModes).
  discriminate.
Defined.

(** X22.  A result of [FilterSQLMode] that is not empty is made of
    exactly the modes of the input that the filter does not flag, in
    their order: none of its modes is flagged. *)
Theorem FilterSQLMode_modes (orig : string) (remove : gmap string bool) :
  FilterSQLMode orig remove ≠ ""%string →
  Split_byte (FilterSQLMode orig remove) ","
  = filterSQLMode (Split_byte orig ",") remove
  ∧ Forall (λ mode, flagged remove mode = false)
           (Split_byte (FilterSQLMode orig remove) ",").
Proof.
  intros H. destruct (FilterSQLMode_Split orig remove H) as [_ HS].
  split; [exact HS|]. rewrite HS. unfold filterSQLMode.
  eapply Forall_impl;
    [apply (filter_kept _ (λ _, True)); by apply Forall_forall|].
  intros x [Hx _]. cbv beta in Hx. by destruct (flagged remove x).
Qed.

Lemma FilterSQLMode_modes_witness :
  FilterSQLMode "ANSI_QUOTES,STRICT_ALL_TABLES,ANSI" IntrospectionBadSQLModes
  ≠ ""%string
  ∧ Split_byte (FilterSQLMode "ANSI_QUOTES,STRICT_ALL_TABLES,ANSI"
                              IntrospectionBadSQLModes) ","
    = filterSQLMode (Split_byte "ANSI_QUOTES,STRICT_ALL_TABLES,ANSI" ",")
                    IntrospectionBadSQLModes
  ∧ Forall (λ mode, flagged IntrospectionBadSQLModes mode = false)
           (Split_byte (FilterSQLMode "ANSI_QUOTES,STRICT_ALL_TABLES,ANSI"
                                      IntrospectionBadSQLModes) ",").
Proof.
  assert (H : FilterSQLMode "ANSI_QUOTES,STRICT_ALL_TABLES,ANSI"
                            IntrospectionBadSQLModes ≠ ""%string)
    by (vm_compute; discriminate).
  split; [exact H|].
  exact (FilterSQLMode_modes "ANSI_QUOTES,STRICT_ALL_TABLES,ANSI"
                             IntrospectionBadSQLModes H).
Defined.

(** X23.  [FilterSQLMode] is idempotent, and two filters can be applied
    in either order. *)
Theorem FilterSQLMode_idempotent_commutes
    (orig : string) (r1 r2 : gmap string bool) :
  FilterSQLMode (FilterSQLMode orig r1) r1 = FilterSQLMode orig r1
  ∧ FilterSQLMode (FilterSQLMode orig r1) r2
    = FilterSQLMode (FilterSQLMode orig r2) r1.
Proof.
  destruct (String.eqb_spec orig "") as [->|Ho]; [split; reflexivity|].
  rewrite !FilterSQLMode_FilterSQLMode by done. split.
  - rewrite FilterSQLMode_Join by done. unfold filterSQLMode.
    rewrite filter_twice. reflexivity.
  - unfold filterSQLMode. rewrite filter_swap. reflexivity.
Qed.

Example FilterSQLMode_example :
  FilterSQLMode "ANSI_QUOTES,STRICT_ALL_TABLES,ANSI" IntrospectionBadSQLModes
  = "STRICT_ALL_TABLES"%string
  ∧ FilterSQLMode "ORACLE,NO_KEY_OPTIONS" NonPortableSQLModes = ""%string
  ∧ FilterSQLMode "a,,b" IntrospectionBadSQLModes = "a,,b"%string.
Proof. vm_compute. repeat split. Qed.

Example EscapeValueForCreateTable_example :
  EscapeValueForCreateTable "it's a \ path" = "it''s a \\ path"%string
  ∧ EscapeIdentifier "odd`name" = "`odd``name`"%string.
Proof. vm_compute. split; reflexivity. Qed.

(** ** [baseDSN] *)

Lemma Join_nosep_cons e l : Join (e :: l) "" = (e ++ Join l "")%string.
Proof.
  destruct l as [|x l]; [cbn [Join]; by rewrite append_nil_r|].
  rewrite Join_cons by discriminate. by rewrite append_nil_l.
Qed.

Lemma SplitAfter_byte_nonempty s sep : SplitAfter_byte s sep ≠ [].
Proof.
  destruct s as [|c r]; cbn [SplitAfter_byte]; [discriminate|].
  destruct (Ascii.eqb c sep); [discriminate|].
  destruct (SplitAfter_byte r sep); discriminate.
Qed.

Lemma SplitAfter_byte_single s sep :
  has_byte sep s = false → SplitAfter_byte s sep = [s].
Proof.
  induction s as [|c r IH]; [reflexivity|]. cbn [has_byte SplitAfter_byte].
  destruct (Ascii.eqb c sep); [discriminate|]. cbn [orb]. intros H.
  rewrite (IH H). reflexivity.
Qed.

Lemma SplitAfter_byte_many s sep :
  has_byte sep s = true → ∃ p q l, SplitAfter_byte s sep = p :: q :: l.
Proof.
  induction s as [|c r IH]; [discriminate|]. cbn [has_byte SplitAfter_byte].
  destruct (Ascii.eqb c sep); cbn [orb].
  - intros _. destruct (SplitAfter_byte r sep) as [|q l] eqn:E;
      [exfalso; by eapply SplitAfter_byte_nonempty|]. by do 3 eexists.
  - intros H. destruct (IH H) as (p & q & l & ->). by do 3 eexists.
Qed.

(** How [baseDSN] goes through its input: a byte is kept when it is a
    slash or a slash comes later. *)
Lemma baseDSN_cons c r :
  baseDSN (String c r)
  = if Ascii.eqb c "/" || has_byte "/" r then String c (baseDSN r)
    else ""%string.
Proof.
  unfold baseDSN. cbn [SplitAfter_byte].
  destruct (Ascii.eqb c "/") eqn:Ec; cbn [orb].
  - destruct (SplitAfter_byte r "/") as [|q l] eqn:E;
      [exfalso; by eapply SplitAfter_byte_nonempty|].
    cbn [length Nat.sub]. rewrite Nat.sub_0_r.
    cbn [take]. rewrite Join_nosep_cons. reflexivity.
  - destruct (has_byte "/" r) eqn:Eh.
    + destruct (SplitAfter_byte_many r "/" Eh) as (p & q & l & ->).
      cbn [length Nat.sub take]. rewrite !Join_nosep_cons. reflexivity.
    + rewrite (SplitAfter_byte_single r "/" Eh). reflexivity.
Qed.

Lemma baseDSN_no_slash s : has_byte "/" s = false → baseDSN s = ""%string.
Proof.
  intros H. unfold baseDSN. rewrite (SplitAfter_byte_single s "/" H).
  reflexivity.
Qed.

Lemma baseDSN_app p rest :
  has_byte "/" rest = false →
  baseDSN (p ++ String "/" rest)%string = (p ++ "/")%string.
Proof.
  intros H. induction p as [|c p IH].
  - rewrite !append_nil_l, baseDSN_cons. cbn [Ascii.eqb Bool.eqb orb].
    rewrite (baseDSN_no_slash rest H). reflexivity.
  - rewrite !append_cons, baseDSN_cons, has_byte_app. cbn [has_byte].
    rewrite Ascii.eqb_refl. cbn [orb]. rewrite !orb_true_r, IH. reflexivity.
Qed.


(** X24.  [baseDSN] keeps its input up to and with the last slash: on an
    input without a slash it returns the empty string, and on a prefix,
    a slash and a rest without a slash it returns the prefix with the
    slash. *)
Theorem baseDSN_through_last_slash (rest : string) :
  has_byte "/" rest = false →
  baseDSN rest = ""%string
  ∧ ∀ p, baseDSN (p ++ "/" ++ rest)%string = (p ++ "/")%string.
Proof.
  intros H. split; [by apply baseDSN_no_slash|].
  intros p. rewrite append_cons, append_nil_l. by apply baseDSN_app.
Qed.

Lemma baseDSN_through_last_slash_witness :
  has_byte "/" "db?tls=false" = false
  ∧ baseDSN "db?tls=false" = ""%string
  ∧ ∀ p, baseDSN (p ++ "/" ++ "db?tls=false")%string = (p ++ "/")%string.
Proof.
  split; [reflexivity|].
  apply (baseDSN_through_last_slash "db?tls=false"). reflexivity.
Defined.


Example baseDSN_example :
  baseDSN "user:pass@tcp(host:3306)/dbname?param=value"
  = "user:pass@tcp(host:3306)/"%string
  ∧ baseDSN "user@unix(/var/lib/mysql/mysql.sock)/db"
    = "user@unix(/var/lib/mysql/mysql.sock)/"%string.
Proof. vm_compute. split; reflexivity. Qed.

(** ** [splitAttributes] *)

Lemma get_last_Some (s : string) :
  s ≠ ""%string → is_Some (get (String.length s - 1) s).
Proof.
  induction s as [|c s IH]; [done|]. intros _.
  cbn [String.length Nat.sub]. rewrite Nat.sub_0_r.
  destruct s as [|d s]; [by eexists|].
  cbn [String.length get]. 
  replace (String.length s) with (String.length (String d s) - 1)
    by (cbn [String.length]; lia).
  by apply IH.
Qed.

Lemma length_one (s : string) c :
  get 0 s = Some c → String.length s < 2 → s = String c "".
Proof.
  destruct s as [|d [|e s]]; cbn [get String.length]; intros H Hl;
    [discriminate|congruence|lia].
Qed.


Section WithLexing.
Context {L : Lexing}.

Lemma splitAttributes_loop_total :
  ∀ n tokens, length tokens ≤ n → Forall sound_token tokens →
              is_Some (splitAttributes_loop tokens).
Proof.
  induction n as [|n IH]; intros [|tok rest] Hn Hs;
    try (by eexists); cbn [length] in Hn; [lia|].
  inversion Hs as [|? ? [Htok _] Hrest]; subst.
  cbn [splitAttributes_loop].
  destruct tok as [|c0 tok]; [done|]. cbn [get mbind option_bind].
  assert (Hplain : is_Some (splitAttributes_loop rest))
    by (apply IH; [lia|done]).
  destruct Hplain as [tail Htail].
  destruct rest as [|eq [|value rest']];
    try (rewrite Htail; cbn; by eexists).
  destruct (String.eqb eq "="); [|rewrite Htail; cbn; by eexists].
  inversion Hrest as [|? ? _ Hrest']; subst.
  inversion Hrest' as [|? ? [Hv Hq] Hrest'']; subst.
  destruct (IH rest') as [tail' ->]; [cbn [length] in Hn; lia|done|].
  assert (Ev0 : ∃ v0, get 0 value = Some v0)
    by (destruct value; [done|by eexists]).
  destruct Ev0 as [v0 Ev0]. rewrite Ev0.
  destruct (get_last_Some value Hv) as [vl ->].
  cbn [mbind option_bind].
  destruct (Ascii.eqb_spec v0 dquote) as [->|?]; cbn [andb];
    [|cbn; by eexists].
  destruct (Ascii.eqb vl dquote); [|cbn; by eexists].
  destruct (Nat.ltb_spec (String.length value) 2) as [Hl|Hl];
    [|cbn; by eexists].
  exfalso. apply Hq. by apply length_one.
Qed.


(** X26.  [splitAttributes] does not panic when no token of its input is
    empty or a lone double quote. *)
Theorem splitAttributes_no_panic (input : string) :
  Forall sound_token (TokenizeString input) →
  is_Some (splitAttributes input).
Proof.
  intros H. unfold splitAttributes.
  destruct (String.eqb input ""); [by eexists|].
  by eapply splitAttributes_loop_total.
Qed.


End WithLexing.

Lemma splitAttributes_no_panic_witness :
  Forall sound_token (@TokenizeString model_lexing "partitioned KEY_BLOCK_SIZE=8")
  ∧ is_Some (@splitAttributes model_lexing "partitioned KEY_BLOCK_SIZE=8").
Proof.
  split.
  - vm_compute. repeat constructor; discriminate.
  - apply (@splitAttributes_no_panic model_lexing "partitioned KEY_BLOCK_SIZE=8").
    vm_compute. repeat constructor; discriminate.
Defined.


End TengoStrings.

(** * Where [Parse] says its statements are *)

Module FsPositions.
Import GoStd Fs FsProofs FsMore.
Local Close Scope string_scope.

Lemma at_origin_app (l : list Statement) s l' :
  at_origin (l ++ [s]) → at_origin ((l ++ [s]) ++ l').
Proof. destruct l; exact id. Qed.

Lemma positions_snoc sf res s s1 s' :
  positions_ok sf (res ++ [s]) →
  File s1 = File s → LineNo s1 = LineNo s → CharNo s1 = CharNo s →
  File s' = sf → 1 ≤ CharNo s' →
  positions_ok sf ((res ++ [s1]) ++ [s']).
Proof.
  intros [HF HO] E1 E2 E3 E4 E5. apply Forall_app in HF as [HF Hs].
  apply Forall_inv in Hs as [Hs1 Hs2]. split.
  - apply Forall_app. split; [apply Forall_app; split|]; [exact HF| |].
    + constructor; [|constructor]. split; [congruence|lia].
    + constructor; [|constructor]. split; assumption.
  - apply at_origin_app. destruct res; [|exact HO].
    cbn in *. split; lia.
Qed.

Lemma append_to_last_fields (l : list Statement) t :
  map (λ s, (File s, LineNo s, CharNo s)) (append_to_last l t)
  = map (λ s, (File s, LineNo s, CharNo s)) l.
Proof.
  induction l as [|s [|s' l] IH]; [reflexivity|reflexivity|].
  change (append_to_last (s :: s' :: l) t) with (s :: append_to_last (s' :: l) t).
  cbn [map]. cbn [map] in IH. rewrite IH. reflexivity.
Qed.

Lemma positions_fields sf (l l' : list Statement) :
  map (λ s, (File s, LineNo s, CharNo s)) l
  = map (λ s, (File s, LineNo s, CharNo s)) l' →
  positions_ok sf l → positions_ok sf l'.
Proof.
  intros E [HF HO]. split.
  - clear HO. revert l' E.
    induction HF as [|s l [H1 H2] _ IH]; intros [|s' l'] E;
      try discriminate; [constructor|].
    cbn [map] in E. injection E as E1 E2 E3 E.
    constructor; [split; [congruence|lia]|by apply IH].
  - destruct l as [|s l], l' as [|s' l']; try discriminate; [exact I|].
    cbn [map] in E. injection E as E1 E2 E3 E. cbn in *. split; lia.
Qed.

Lemma positions_merge sf res s t :
  res ≠ [] →
  positions_ok sf (res ++ [s]) →
  positions_ok sf (append_to_last res t
                   ++ [mkStatement (File s) (LineNo s + 1) 1 (Text s)]).
Proof.
  intros Hne [HF HO]. apply Forall_app in HF as [HF Hs].
  apply Forall_inv in Hs as [Hs1 Hs2].
  assert (Hres : positions_ok sf res).
  { split; [exact HF|]. destruct res; [done|exact HO]. }
  apply (positions_fields sf res (append_to_last res t)) in Hres;
    [|symmetry; apply append_to_last_fields].
  destruct Hres as [HF' HO']. split.
  - apply Forall_app. split; [exact HF'|].
    constructor; [|constructor]. split; [exact Hs1|cbn; lia].
  - destruct (append_to_last res t) as [|r l] eqn:E; [|exact HO'].
    apply (f_equal (map (λ s, (File s, LineNo s, CharNo s)))) in E.
    rewrite append_to_last_fields in E. destruct res; [done|discriminate].
Qed.

Lemma positions_with_Text sf res s t :
  positions_ok sf (res ++ [s]) → positions_ok sf (res ++ [with_Text s t]).
Proof.
  apply positions_fields. rewrite !map_app. reflexivity.
Qed.

Lemma positions_init sf res s :
  positions_ok sf (res ++ [s]) → positions_ok sf res.
Proof.
  intros [HF HO]. apply Forall_app in HF as [HF _]. split; [exact HF|].
  destruct res; [exact I|exact HO].
Qed.

Lemma positions_snoc_snoc sf res s t l1 c1 t1 t2 l2 c2 t3 :
  positions_ok sf (res ++ [s]) → 1 ≤ c1 → 1 ≤ c2 →
  positions_ok sf (((res ++ [with_Text s t])
                    ++ [with_Text (mkStatement sf l1 c1 t1) t2])
                   ++ [mkStatement sf l2 c2 t3]).
Proof.
  intros H H1 H2.
  apply (positions_snoc sf _ (mkStatement sf l1 c1 t1)); try reflexivity;
    [|exact H2].
  apply (positions_snoc sf res s); try reflexivity; [exact H|exact H1].
Qed.

Ltac positions :=
  first
    [ eassumption
    | eapply positions_snoc_snoc; [eassumption | cbn; lia | cbn; lia]
    | eapply positions_merge;
      [ intros Hnil;
        match goal with
        | H : (0 <=? _)%Z = true |- _ =>
          apply Z.leb_le in H; rewrite Hnil in H; cbn in H; lia
        end
      | eassumption ]
    | eapply positions_snoc;
      [ positions | reflexivity | reflexivity | reflexivity
      | reflexivity | cbn; lia ] ].

Lemma step_positions sf contents last st n (c : rune) :
  positions_ok sf (result st ++ [stmt st]) →
  positions_ok sf (result (step sf contents last st (n, c))
                   ++ [stmt (step sf contents last st (n, c))]).
Proof.
  intros H. unfold step, dispatch.
  repeat (case_match; cbn -[N.eqb N.ltb Nat.eqb Nat.ltb Z.ltb Z.leb slice] in * );
    bool_facts; subst; positions.
Qed.

(** X6.  Every statement [Parse] returns names the file parsed and a
    column of 1 or more, and the first statement is at line 1,
    column 1. *)
Theorem Parse_positions sf contents :
  Forall (λ s, File s = sf ∧ 1 ≤ CharNo s) (fst (Parse sf (inr contents)))
  ∧ at_origin (fst (Parse sf (inr contents))).
Proof.
  destruct (run_keeps (λ st _, positions_ok sf (result st ++ [stmt st]))
              sf contents) with (rs := range contents) (st := scan_init sf) (b := 0)
    as (b & _ & HP).
  - intros st b n c H _ _ _. by apply step_positions.
  - split; [repeat constructor|split; reflexivity].
  - apply range_is_ok.
  - fold (final_scan sf contents) in HP.
    unfold Parse, finish. cbn [fst].
    destruct (0 <? String.length _)%nat.
    + by apply positions_with_Text.
    + by eapply positions_init.
Qed.

End FsPositions.

(** * [Equals] *)

Module TengoEquals.
Import Tengo TengoProofs TengoMore.
Local Close Scope string_scope.

Section WithLexing.
Context {L : Lexing}.

Lemma Equivalent_true (x y : Index) :
  Equivalent (Some x) (Some y) = Some true ↔
  (PrimaryKey x = PrimaryKey y ∧ Unique x = Unique y
   ∧ Type_ x = Type_ y ∧ FullTextParser x = FullTextParser y)
  ∧ Parts x = Parts y ∧ sameAttributes x y = Some true.
Proof.
  unfold Equivalent.
  destruct (Bool.eqb_spec (PrimaryKey x) (PrimaryKey y)),
    (Bool.eqb_spec (Unique x) (Unique y)),
    (String.eqb_spec (Type_ x) (Type_ y)),
    (String.eqb_spec (FullTextParser x) (FullTextParser y));
    cbn [negb orb];
    try (split; [discriminate | intros [(? & ? & ? & ?) _]; contradiction]).
  rewrite and_then_true, sameParts_true. intuition.
Qed.

Lemma with_Attributes_fields (a b : Index) attrs :
  with_Attributes a attrs = b →
  Name a = Name b ∧ Comment a = Comment b ∧ Invisible a = Invisible b
  ∧ PrimaryKey a = PrimaryKey b ∧ Unique a = Unique b
  ∧ Type_ a = Type_ b ∧ FullTextParser a = FullTextParser b
  ∧ Parts a = Parts b.
Proof. intros <-. by destruct a. Qed.

Lemma Equals_true (a b : Index) :
  Equals (Some a) (Some b) = Some true ↔
  with_Attributes a (Attributes b) = b ∧ sameAttributes a b = Some true.
Proof.
  unfold Equals.
  destruct (String.eqb_spec (Name a) (Name b)) as [En|En],
    (String.eqb_spec (Comment a) (Comment b)) as [Ec|Ec],
    (Bool.eqb_spec (Invisible a) (Invisible b)) as [Ei|Ei];
    cbn [andb];
    try (split; [discriminate|];
         intros [H _]; apply with_Attributes_fields in H;
         destruct H as (? & ? & ? & _); contradiction).
  rewrite Equivalent_true. split.
  - intros ((? & ? & ? & ?) & ? & ?). split; [|assumption].
    destruct a, b; unfold with_Attributes; cbn in *; subst; reflexivity.
  - intros [H Hs]. apply with_Attributes_fields in H.
    destruct H as (_ & _ & _ & ? & ? & ? & ? & ?). repeat split; assumption.
Qed.

(** X14.  [Equals] answers true exactly when both indexes are nil, or both
    exist, agree in every field but [Attributes], and have attributes
    that pass [sameAttributes]. *)
Theorem Equals_all_but_attributes (x y : option Index) :
  Equals x y = Some true ↔
  (x = None ∧ y = None)
  ∨ ∃ a b, x = Some a ∧ y = Some b
           ∧ with_Attributes a (Attributes b) = b
           ∧ sameAttributes a b = Some true.
Proof.
  destruct x as [a|], y as [b|].
  - rewrite Equals_true. split.
    + intros [H Hs]. right. exists a, b. by repeat split.
    + intros [[? _]|(a' & b' & [= <-] & [= <-] & H & Hs)]; [discriminate|].
      by split.
  - split; [discriminate|].
    intros [[? _]|(? & ? & _ & ? & _)]; discriminate.
  - split; [discriminate|].
    intros [[_ ?]|(? & ? & ? & _)]; discriminate.
  - split; [intros _; by left|reflexivity].
Qed.

(** X15.  [Equals] holds between every index, nil included, and itself;
    when it holds between two indexes, [Equivalent] holds between them
    and [Equals] holds the other way round. *)
Theorem Equals_reflexive_symmetric (x y : option Index) :
  Equals x x = Some true
  ∧ (Equals x y = Some true →
     Equivalent x y = Some true ∧ Equals y x = Some true).
Proof.
  split.
  - destruct x as [a|]; [|reflexivity]. apply Equals_true. split.
    + by destruct a.
    + apply sameAttributes_true. by left.
  - destruct x as [a|], y as [b|]; try discriminate; [|done].
    intros H. split.
    + unfold Equals in H.
      destruct (_ && _ && _) in H; [exact H|discriminate].
    + apply Equals_true in H as [H Hs]. apply Equals_true. split.
      * rewrite <- H. by destruct a.
      * by rewrite sameAttributes_sym.
Qed.

End WithLexing.

Lemma Equals_reflexive_symmetric_witness :
  @Equals model_lexing (Some key_ab) (Some key_ab) = Some true
  ∧ @Equivalent model_lexing (Some key_ab) (Some key_ab) = Some true.
Proof.
  destruct (@Equals_reflexive_symmetric model_lexing (Some key_ab) (Some key_ab))
    as [Hr Hs].
  split; [exact Hr|]. exact (proj1 (Hs Hr)).
Defined.

End TengoEquals.
